(** * Text <-> grayscale image codec: model and verified properties

    A shallow embedding of [TextToImage.py] and [ImageToText.py].

    Python values are modelled as follows.
    - [int] is [Z]; [%] and [//] are [Z.modulo] and [Z.div] (both floor
      towards minus infinity, as in Python), and a zero divisor raises
      [ZeroDivisionError].
    - A text [str] is the list of its code points ([list N]).
    - A file path [str] is a list of [ascii]: the code points 0..255, on which
      [str.lower] is the Latin-1 part of the Unicode lower-case mapping.
    - Exceptions are values of [exn]; fallible functions return [result].
    - The two [while] loops run on fuel, one more than the length of the
      string or list they shorten; [OutOfFuel] is a separate outcome and is
      proved unreachable.
    - An image of mode "L" is its size and one intensity per cell; what is
      written to a cell is clipped to a byte.
    - The file system and the order of the raster operations are kept in a
      [World], threaded through [encode] and [decode] by a state-and-error
      monad.  Saving and opening an image are lossless; whether a file can
      be written at a path is decided by the world's [Platform]. *)

From Stdlib Require Import Ascii String.
From Stdlib Require Import ZArith List Lia Bool Sorted.
Import ListNotations.

Local Open Scope Z_scope.

(* ================================================================= *)
(** ** Exceptions and results *)

Inductive exn : Type :=
| TypeError
| ValueError
| IndexError
| ZeroDivisionError
| FileExistsError
| OSError.

Inductive result (A : Type) : Type :=
| Ok (a : A)
| Raise (e : exn)
| OutOfFuel.

Arguments Ok {A} a.
Arguments Raise {A} e.
Arguments OutOfFuel {A}.

Definition bind {A B : Type} (r : result A) (k : A -> result B) : result B :=
  match r with
  | Ok a => k a
  | Raise e => Raise e
  | OutOfFuel => OutOfFuel
  end.

Declare Scope result_scope.
Delimit Scope result_scope with result.
Notation "x <- e ;; k" := (bind e (fun x => k))
  (at level 100, e at next level, right associativity) : result_scope.
Notation "' p <- e ;; k" := (bind e (fun p => k))
  (at level 100, p pattern, e at next level, right associativity) : result_scope.

Local Open Scope result_scope.

(* ================================================================= *)
(** ** File paths: [check_filename] *)

Definition str : Type := list ascii.

(** A path literal. *)
Definition lit (s : string) : str := list_ascii_of_string s.

Definition str_eqb (a b : str) : bool :=
  if list_eq_dec ascii_dec a b then true else false.

(** [str.lower] on one Latin-1 character: A-Z and the accented capitals
    U+00C0..U+00DE (the multiplication sign U+00D7 apart) move up by 32. *)
Definition lower_char (c : ascii) : ascii :=
  let n := nat_of_ascii c in
  if ((65 <=? n) && (n <=? 90))%nat
     || ((192 <=? n) && (n <=? 222) && negb (n =? 215))%nat
  then ascii_of_nat (n + 32)
  else c.

Definition lower (s : str) : str := map lower_char s.

(** [s[0]] *)
Definition index_first (s : str) : result ascii :=
  match s with
  | [] => Raise IndexError
  | c :: _ => Ok c
  end.

Fixpoint last_opt (s : str) : option ascii :=
  match s with
  | [] => None
  | [c] => Some c
  | _ :: s' => last_opt s'
  end.

(** [s[-1]] *)
Definition index_last (s : str) : result ascii :=
  match last_opt s with
  | None => Raise IndexError
  | Some c => Ok c
  end.

(** [s[-n:]] for [n >= 0]: the last [n] characters, all of [s] when it is
    shorter, and all of [s] when [n = 0] (because [-0 = 0]). *)
Definition slice_last (n : nat) (s : str) : str :=
  match n with
  | O => s
  | _ => skipn (length s - n) s
  end.

Definition slash : ascii := "/"%char.
Definition backslash : ascii := "\"%char.
Definition period : ascii := "."%char.

Definition is_slash (c : ascii) : bool :=
  Ascii.eqb c slash || Ascii.eqb c backslash.

(** [while filepath[-1] == "/" or filepath[-1] == "\\": filepath = filepath[0:-1]] *)
Fixpoint strip_slashes (fuel : nat) (filepath : str) : result str :=
  match fuel with
  | O => OutOfFuel
  | S fuel' =>
      c <- index_last filepath ;;
      if is_slash c
      then strip_slashes fuel' (removelast filepath)
      else Ok filepath
  end.

Definition check_filename (filepath extension : str) : result str :=
  c0 <- index_first extension ;;
  if negb (Ascii.eqb c0 period) then Raise ValueError
  else
    let file_extension := lower (slice_last (length extension) filepath) in
    let extension := lower extension in
    if negb (str_eqb file_extension extension) then
      filepath <- strip_slashes (S (length filepath)) filepath ;;
      Ok (filepath ++ extension)
    else Ok filepath.

(** The properties used in the statements. *)

Definition starts_with_period (extension : str) : Prop :=
  exists rest, extension = period :: rest.

Definition only_slashes (s : str) : Prop :=
  Forall (fun c => is_slash c = true) s.

Definition has_name_char (s : str) : Prop :=
  Exists (fun c => is_slash c = false) s.

(** [r.endswith(suffix)] *)
Definition endswith (r suffix : str) : bool :=
  (length suffix <=? length r)%nat
  && str_eqb (skipn (length r - length suffix) r) suffix.


(* ================================================================= *)
(** ** Characters and the value mapper: [convert_char_to_int] *)

(** A character is its code point. *)
Definition char : Type := N.
Definition text : Type := list char.

Definition ord (c : char) : Z := Z.of_N c.

(** [chr(i)]: [ValueError] outside [range(0x110000)]. *)
Definition chr (i : Z) : result char :=
  if (0 <=? i) && (i <? 1114112) then Ok (Z.to_N i) else Raise ValueError.

(** [len(text)] *)
Definition len {A : Type} (l : list A) : Z := Z.of_nat (length l).

(** [l[i]] for [i >= 0] *)
Definition index {A : Type} (l : list A) (i : Z) : result A :=
  if i <? 0 then Raise IndexError
  else match nth_error l (Z.to_nat i) with
       | Some a => Ok a
       | None => Raise IndexError
       end.

(** The two assignments of [convert_char_to_int]:
    [value = ord(char) % limit; value = 1 if value == 0 else value]. *)
Definition pixel_value (c : char) (limit : Z) : Z :=
  let value := ord c mod limit in
  let value := if value =? 0 then 1 else value in
  value.

Definition convert_char_to_int (c : char) (limit : Z) : result Z :=
  if limit =? 0 then Raise ZeroDivisionError
  else Ok (pixel_value c limit).

(* ================================================================= *)
(** ** The geometry calculator: [_factors] and [get_image_size] *)

(** [range(lo, hi)] *)
Definition range (lo hi : Z) : list Z :=
  map (fun k => lo + Z.of_nat k) (seq 0 (Z.to_nat (hi - lo))).

(** [int(number ** 0.5)]: the integer square root.  The float square root
    of a length below 2^52 truncates to exactly this value. *)
Definition isqrt (number : Z) : Z := Z.sqrt number.

(** [reduce(list.__add__, ls)] with no initial value: [TypeError] on an
    empty sequence. *)
Definition reduce_add (ls : list (list Z)) : result (list Z) :=
  match ls with
  | [] => Raise TypeError
  | l :: ls' => Ok (fold_left (@app Z) ls' l)
  end.

(** [[i, number // i] for i in range(1, int(number ** 0.5) + 1) if number % i == 0] *)
Definition factor_pairs (number : Z) : list (list Z) :=
  map (fun i => [i; number / i])
      (filter (fun i => number mod i =? 0) (range 1 (isqrt number + 1))).

(** [set(l)]: the distinct elements (in some order). *)
Definition set (l : list Z) : list Z := nodup Z.eq_dec l.

Fixpoint insert (x : Z) (l : list Z) : list Z :=
  match l with
  | [] => [x]
  | y :: l' => if x <=? y then x :: l else y :: insert x l'
  end.

(** [sorted(l)] *)
Definition sorted (l : list Z) : list Z := fold_right insert [] l.

(** Strictly ascending lists: what [sorted(set(l))] returns. *)
Definition ascending (l : list Z) : Prop := StronglySorted Z.lt l.

Definition _factors (number : Z) : result (list Z) :=
  if number <? 0 then Raise ValueError
  else
    l <- reduce_add (factor_pairs number) ;;
    Ok (sorted (set l)).

(** What the proofs need of a divisor list: strictly ascending, positive
    members, and closed under taking the cofactor. *)
Record divisor_list (number : Z) (f : list Z) : Prop := {
  dl_ascending : ascending f;
  dl_nonempty : f <> [];
  dl_cofactor : forall d, In d f ->
      1 <= d /\ d * (number / d) = number /\ In (number / d) f
}.

(** [f.pop(0)] and [f.pop()], keeping the list that remains. *)
Definition pop_first (f : list Z) : result (list Z) :=
  match f with
  | [] => Raise IndexError
  | _ :: f' => Ok f'
  end.

Definition pop_last (f : list Z) : result (list Z) :=
  match f with
  | [] => Raise IndexError
  | _ => Ok (removelast f)
  end.

(** [while len(f) != 2: f.pop(0); f.pop()] *)
Fixpoint trim_to_two (fuel : nat) (f : list Z) : result (list Z) :=
  if len f =? 2 then Ok f
  else
    match fuel with
    | O => OutOfFuel
    | S fuel' =>
        f <- pop_first f ;;
        f <- pop_last f ;;
        trim_to_two fuel' f
    end.

Definition true_length (text_length : Z) : Z :=
  if text_length mod 2 =? 0 then text_length + 2 else text_length + 1.

Definition get_image_size (text_length : Z) : result (Z * Z) :=
  let true_length := true_length text_length in
  f <- _factors true_length ;;
  if negb (len f mod 2 =? 0) then
    m <- index f (len f / 2) ;;
    Ok (m, m)
  else
    f <- trim_to_two (S (length f)) f ;;
    width <- index f 1 ;;
    height <- index f 0 ;;
    Ok (width, height).

(* ================================================================= *)
(** ** Rasters: the mode "L" image of [PIL.Image] *)

(** An image has a [size = (width, height)] and one intensity per cell
    [(x, y)], [0 <= x < width], [0 <= y < height]. *)
Record Image : Type := mkImage {
  size : Z * Z;
  pixel_at : Z * Z -> Z
}.

(** Mode "L" keeps one byte per cell: [putpixel] clips an integer ink to
    0..255 (Pillow's [CLIP8]); a value in that range is kept as it is. *)
Definition CLIP8 (v : Z) : Z :=
  if v <=? 0 then 0 else if v <? 256 then v else 255.

Definition xy_eqb (a b : Z * Z) : bool :=
  (fst a =? fst b) && (snd a =? snd b).

Definition in_image (img : Image) (xy : Z * Z) : bool :=
  (0 <=? fst xy) && (fst xy <? fst (size img))
  && (0 <=? snd xy) && (snd xy <? snd (size img)).

(** [Image.new("L", size)]: a black image. *)
Definition blank (sz : Z * Z) : Image :=
  mkImage sz (fun _ => 0).

(** [img.putpixel(xy, value)]; coordinates come from [range(0, n)], hence
    are never negative. *)
Definition set_pixel (img : Image) (xy : Z * Z) (value : Z) : Image :=
  mkImage (size img)
          (fun c => if xy_eqb c xy then CLIP8 value else pixel_at img c).

Definition putpixel (img : Image) (xy : Z * Z) (value : Z) : result Image :=
  if in_image img xy then Ok (set_pixel img xy value) else Raise IndexError.

(** [img.getpixel(xy)] *)
Definition getpixel (img : Image) (xy : Z * Z) : result Z :=
  if in_image img xy then Ok (pixel_at img xy) else Raise IndexError.

(* ================================================================= *)
(** ** The world: saved files and the journal of raster operations *)

Inductive event : Type :=
| Allocated (sz : Z * Z)
| PixelWritten (xy : Z * Z) (value : Z)
| Saved (path : str).

(** Writing a file can fail for reasons that lie in Pillow and in the
    file system, not in this program.  They are part of the world, by the
    class of the exception: a [ValueError] (for [img.save], a file name in
    which [os.path.splitext] finds no known extension) or an [OSError] (a
    missing directory, no permission, a path that is a directory). *)
Inductive io_error : Type :=
| RaisesValueError
| RaisesOSError.

Definition exn_of_io_error (e : io_error) : exn :=
  match e with
  | RaisesValueError => ValueError
  | RaisesOSError => OSError
  end.

Record Platform : Type := mkPlatform {
  (** what [img.save(path)] raises, if anything, before it writes *)
  save_error : str -> option io_error;
  (** what [open(path, "w")] raises, if anything *)
  open_error : str -> option io_error;
  (** whether [f.write(text)] raises [UnicodeEncodeError], the platform's
      encoding having no bytes for the text *)
  unencodable : text -> bool
}.

Record World : Type := mkWorldOn {
  files : list (str * Image);
  journal : list event;
  platform : Platform
}.

Definition log (e : event) (w : World) : World :=
  mkWorldOn (files w) (journal w ++ [e]) (platform w).

(** A reference platform: POSIX paths, every directory present and
    writable, UTF-8, and PNG the format that Pillow knows.  [img.save]
    takes the format from [os.path.splitext(path)[1].lower()] and raises
    [ValueError] where that is not [".png"]; the extension is what starts
    at the last period of the part of the path after its last ['/'], the
    leading periods of that part apart. *)
Definition basename (path : str) : str :=
  fold_left (fun acc c => if Ascii.eqb c slash then [] else acc ++ [c]) path [].

Fixpoint drop_periods (s : str) : str :=
  match s with
  | c :: s' => if Ascii.eqb c period then drop_periods s' else s
  | [] => []
  end.

Fixpoint from_last_period (s : str) : option str :=
  match s with
  | c :: s' =>
      match from_last_period s' with
      | Some e => Some e
      | None => if Ascii.eqb c period then Some s else None
      end
  | [] => None
  end.

Definition splitext_ext (path : str) : str :=
  match from_last_period (drop_periods (basename path)) with
  | Some e => e
  | None => []
  end.

Definition is_surrogate (c : char) : bool :=
  (55296 <=? ord c) && (ord c <=? 57343).

Definition posix : Platform :=
  mkPlatform
    (fun path => if str_eqb (lower (splitext_ext path)) (lit ".png")
                 then None else Some RaisesValueError)
    (fun _ => None)
    (existsb is_surrogate).

(** A world on the reference platform. *)
Definition mkWorld (fs : list (str * Image)) (j : list event) : World :=
  mkWorldOn fs j posix.

(** [img.save(path)] goes through. *)
Definition can_save (w : World) (path : str) : Prop :=
  save_error (platform w) path = None.

Fixpoint lookup (path : str) (fs : list (str * Image)) : option Image :=
  match fs with
  | [] => None
  | (p, img) :: fs' => if str_eqb path p then Some img else lookup path fs'
  end.

(** Computations that may raise and that act on the world. *)
Definition M (A : Type) : Type := World -> result A * World.

Definition ret {A : Type} (a : A) : M A := fun w => (Ok a, w).

Definition lift {A : Type} (r : result A) : M A := fun w => (r, w).

Definition bindM {A B : Type} (m : M A) (k : A -> M B) : M B :=
  fun w =>
    match m w with
    | (Ok a, w') => k a w'
    | (Raise e, w') => (Raise e, w')
    | (OutOfFuel, w') => (OutOfFuel, w')
    end.

Notation "x <~ e ;; k" := (bindM e (fun x => k))
  (at level 100, e at next level, right associativity).
Notation "' p <~ e ;; k" := (bindM e (fun p => k))
  (at level 100, p pattern, e at next level, right associativity).

(** [Image.new("L", size)] *)
Definition Image_new (sz : Z * Z) : M Image :=
  fun w =>
    if (fst sz <? 0) || (snd sz <? 0) then (Raise ValueError, w)
    else (Ok (blank sz), log (Allocated sz) w).

Definition Image_putpixel (img : Image) (xy : Z * Z) (value : Z) : M Image :=
  fun w =>
    match putpixel img xy value with
    | Ok img' => (Ok img', log (PixelWritten xy value) w)
    | Raise e => (Raise e, w)
    | OutOfFuel => (OutOfFuel, w)
    end.

(** [img.save(path)]: where the platform lets it through, the file at
    [path] now holds the image; otherwise it raises and writes nothing. *)
Definition Image_save (img : Image) (path : str) : M unit :=
  fun w =>
    match save_error (platform w) path with
    | Some e => (Raise (exn_of_io_error e), w)
    | None =>
        (Ok tt,
         mkWorldOn ((path, img) :: files w) (journal w ++ [Saved path])
                   (platform w))
    end.

(** [path.isfile(image_path)] followed by [Image.open(image_path)]. *)
Definition Image_open (image_path : str) : M Image :=
  fun w =>
    match lookup image_path (files w) with
    | None => (Raise FileExistsError, w)
    | Some img => (Ok img, w)
    end.

(* ================================================================= *)
(** ** The encoder *)

(** The values [encode] may be handed as [text]. *)
Inductive pyval : Type :=
| PyNone
| PyBool (b : bool)
| PyInt (z : Z)
| PyBytes (b : list ascii)
| PyStr (s : text)
| PyObject (class_name : string).

(** [for col in range(0, size[1]): ...] with its [break]. *)
Fixpoint encode_cols (s : text) (limit text_length row : Z) (cols : list Z)
    (img : Image) (ind : Z) : M (Image * Z) :=
  match cols with
  | [] => ret (img, ind)
  | col :: cols' =>
      if ind <? text_length then
        c <~ lift (index s ind) ;;
        pixel_value <~ lift (convert_char_to_int c limit) ;;
        img <~ Image_putpixel img (row, col) pixel_value ;;
        encode_cols s limit text_length row cols' img (ind + 1)
      else ret (img, ind)
  end.

(** [for row in range(0, size[0]): ...] *)
Fixpoint encode_rows (s : text) (limit text_length : Z) (rows cols : list Z)
    (img : Image) (ind : Z) : M (Image * Z) :=
  match rows with
  | [] => ret (img, ind)
  | row :: rows' =>
      '(img, ind) <~ encode_cols s limit text_length row cols img ind ;;
      encode_rows s limit text_length rows' cols img ind
  end.

Definition encode (text : pyval) (image_path : str) (limit : Z) : M str :=
  match text with
  | PyStr s =>
      let text_length := len s in
      sz <~ lift (get_image_size text_length) ;;
      result_path <~ lift (check_filename image_path (lit ".png")) ;;
      img <~ Image_new sz ;;
      '(img, _) <~ encode_rows s limit text_length
                     (range 0 (fst sz)) (range 0 (snd sz)) img 0 ;;
      _ <~ Image_save img result_path ;;
      ret result_path
  | _ => lift (Raise TypeError)
  end.

(* ================================================================= *)
(** ** The decoder *)

Fixpoint decode_cols (img : Image) (row : Z) (cols : list Z)
    (decoded_text : text) : result text :=
  match cols with
  | [] => Ok decoded_text
  | col :: cols' =>
      pixel_value <- getpixel img (row, col) ;;
      if negb (pixel_value =? 0) then
        c <- chr pixel_value ;;
        decode_cols img row cols' (decoded_text ++ [c])
      else decode_cols img row cols' decoded_text
  end.

Fixpoint decode_rows (img : Image) (rows cols : list Z)
    (decoded_text : text) : result text :=
  match rows with
  | [] => Ok decoded_text
  | row :: rows' =>
      decoded_text <- decode_cols img row cols decoded_text ;;
      decode_rows img rows' cols decoded_text
  end.

Definition decode (image_path : str) : M text :=
  img <~ Image_open image_path ;;
  lift (decode_rows img (range 0 (fst (size img))) (range 0 (snd (size img))) []).

(* ================================================================= *)
(** ** The scan order *)

(** The cells of an image in the order in which both pairs of nested loops
    visit them. *)
Definition scan (sz : Z * Z) : list (Z * Z) :=
  flat_map (fun row => map (fun col => (row, col)) (range 0 (snd sz)))
           (range 0 (fst sz)).

(** The body of the encoder's loops, run over a list of cells. *)
Fixpoint encode_cells (s : text) (limit text_length : Z) (cells : list (Z * Z))
    (img : Image) (ind : Z) : M (Image * Z) :=
  match cells with
  | [] => ret (img, ind)
  | xy :: cells' =>
      if ind <? text_length then
        c <~ lift (index s ind) ;;
        pixel_value <~ lift (convert_char_to_int c limit) ;;
        img <~ Image_putpixel img xy pixel_value ;;
        encode_cells s limit text_length cells' img (ind + 1)
      else ret (img, ind)
  end.

(** The body of the decoder's loops, run over a list of cells. *)
Fixpoint decode_cells (img : Image) (cells : list (Z * Z))
    (decoded_text : text) : result text :=
  match cells with
  | [] => Ok decoded_text
  | xy :: cells' =>
      pixel_value <- getpixel img xy ;;
      if negb (pixel_value =? 0) then
        c <- chr pixel_value ;;
        decode_cells img cells' (decoded_text ++ [c])
      else decode_cells img cells' decoded_text
  end.

(** Writing the values [vals], in order, into the cells [cells]. *)
Fixpoint paint (img : Image) (cells : list (Z * Z)) (vals : list Z) : Image :=
  match cells, vals with
  | xy :: cells', v :: vals' => paint (set_pixel img xy v) cells' vals'
  | _, _ => img
  end.

(** The journal entries of those writes. *)
Definition write_events (cells : list (Z * Z)) (vals : list Z) : list event :=
  map (fun '(xy, v) => PixelWritten xy v) (combine cells vals).

(** The intensities of an image in scan order. *)
Definition intensities (img : Image) : list Z :=
  map (pixel_at img) (scan (size img)).

(** What a mode "L" raster keeps of a character. *)
Definition stored (limit : Z) (c : char) : Z := CLIP8 (pixel_value c limit).

(** The raster that holds the text [s], written in scan order into a
    black image of size [sz]. *)
Definition encoded_image (s : text) (limit : Z) (sz : Z * Z) : Image :=
  paint (blank sz) (scan sz) (map (fun c => pixel_value c limit) s).

Definition nonzero (v : Z) : bool := negb (v =? 0).

Definition empty_world : World := mkWorld [] [].

(* ================================================================= *)
(** ** The file wrappers: [encode_file] and [decode_to_file] *)

(** What [path.isfile] and [open(file_path, "r").read()] observe of the
    text files is an input of [encode_file]: [None] where there is no
    regular file, otherwise what reading the whole file gives. *)
Definition TextFiles : Type := str -> option (result text).

Definition encode_file (disk : TextFiles) (file_path image_path : str)
    (limit : Z) : M str :=
  match disk file_path with
  | None => lift (Raise FileExistsError)
  | Some content =>
      if negb (str_eqb (lower (slice_last 4 file_path)) (lit ".txt"))
      then lift (Raise TypeError)
      else
        text <~ lift content ;;
        encode (PyStr text) image_path limit
  end.

(** The world together with the text files written so far, latest first.
    As in [decode], the regular files that [path.isfile] finds are the
    saved images.  [open(file_path, "w")] may be refused by the platform;
    once it went through the file exists, and it stays empty when
    [f.write] cannot encode the text. *)
Record Disk : Type := mkDisk {
  world : World;
  documents : list (str * text)
}.

Definition decode_to_file (image_path file_path : str)
    : Disk -> result str * Disk :=
  fun d =>
    match lookup image_path (files (world d)) with
    | None => (Raise FileExistsError, d)
    | Some _ =>
        if negb (str_eqb (lower (slice_last 4 image_path)) (lit ".png"))
        then (Raise TypeError, d)
        else
          match check_filename file_path (lit ".txt") with
          | Ok file_path =>
              match decode image_path (world d) with
              | (Ok decoded_text, w') =>
                  match open_error (platform w') file_path with
                  | Some e =>
                      (Raise (exn_of_io_error e), mkDisk w' (documents d))
                  | None =>
                      if unencodable (platform w') decoded_text
                      then (Raise ValueError,
                            mkDisk w' ((file_path, []) :: documents d))
                      else (Ok file_path,
                            mkDisk w' ((file_path, decoded_text) :: documents d))
                  end
              | (Raise e, w') => (Raise e, mkDisk w' (documents d))
              | (OutOfFuel, w') => (OutOfFuel, mkDisk w' (documents d))
              end
          | Raise e => (Raise e, d)
          | OutOfFuel => (OutOfFuel, d)
          end
    end.

(* ================================================================= *)
(** ** Notions used in the further properties *)

(** The character the decoder reads back for [c]. *)
Definition decoded_char (limit : Z) (c : char) : char := Z.to_N (stored limit c).

(** Code points that differ by a multiple of the limit. *)
Definition congruent (limit : Z) (a b : char) : Prop :=
  ord a mod limit = ord b mod limit.

Definition perfect_square (n : Z) : Prop := exists m, 0 <= m /\ n = m * m.

Definition is_PixelWritten (e : event) : bool :=
  match e with
  | PixelWritten _ _ => true
  | _ => false
  end.

(* ================================================================= *)
(** * Properties *)

(** ** The examples of the specification, by evaluation *)

Example get_image_size_0 : get_image_size 0 = Ok (2, 1).
Proof. reflexivity. Qed.

Example get_image_size_2 : get_image_size 2 = Ok (2, 2).
Proof. reflexivity. Qed.

Example get_image_size_5 : get_image_size 5 = Ok (3, 2).
Proof. reflexivity. Qed.

Example factors_36 : _factors 36 = Ok [1; 2; 3; 4; 6; 9; 12; 18; 36].
Proof. reflexivity. Qed.

Example convert_char_to_int_256 : convert_char_to_int 256%N 256 = Ok 1.
Proof. reflexivity. Qed.

(** Code points [x] and [x + limit] get the same value. *)
Example convert_char_to_int_collision :
  convert_char_to_int 65%N 256 = convert_char_to_int 321%N 256.
Proof. reflexivity. Qed.

(** ["AB"] becomes a 2 x 2 raster holding 65, 66, 0, 0 and decodes to
    ["AB"]. *)
Example encode_AB :
  exists w' img,
    encode (PyStr [65; 66]%N) (lit "ab") 256 empty_world = (Ok (lit "ab.png"), w')
    /\ lookup (lit "ab.png") (files w') = Some img
    /\ size img = (2, 2)
    /\ intensities img = [65; 66; 0; 0]
    /\ journal w' = [Allocated (2, 2); PixelWritten (0, 0) 65;
                     PixelWritten (0, 1) 66; Saved (lit "ab.png")]
    /\ decode (lit "ab.png") w' = (Ok [65; 66]%N, w').
Proof.
  eexists. eexists. split; [reflexivity|]. repeat split; reflexivity.
Qed.

(** A zero limit is only met at the first character: the image is already
    allocated, and nothing is saved. *)
Example encode_limit_zero :
  encode (PyStr [65]%N) (lit "a") 0 empty_world
  = (Raise ZeroDivisionError, mkWorld [] [Allocated (2, 1)]).
Proof. reflexivity. Qed.

Example check_filename_adds_extension :
  check_filename (lit "dir/out//") (lit ".PNG") = Ok (lit "dir/out.png").
Proof. reflexivity. Qed.

(** The path [".png"] passes [check_filename] as it is, but
    [os.path.splitext] finds no extension in it: the raster is filled, and
    [img.save] raises [ValueError] without writing a file.  The same holds
    of ["x/.png"], and of ["."], which becomes ["..png"]. *)
Example encode_no_extension :
  encode (PyStr [65]%N) (lit ".png") 256 empty_world
  = (Raise ValueError, mkWorld [] [Allocated (2, 1); PixelWritten (0, 0) 65])
  /\ fst (encode (PyStr [65]%N) (lit "x/.png") 256 empty_world) = Raise ValueError
  /\ check_filename (lit ".") (lit ".png") = Ok (lit "..png")
  /\ fst (encode (PyStr [65]%N) (lit ".") 256 empty_world) = Raise ValueError.
Proof. repeat split; reflexivity. Qed.

(** [os.path.splitext] on the reference platform. *)
Example splitext_ext_examples :
  splitext_ext (lit "dir.d/out.tar.PNG") = lit ".PNG"
  /\ splitext_ext (lit "x/.png") = lit ""
  /\ splitext_ext (lit "..png") = lit ""
  /\ splitext_ext (lit ".a.png") = lit ".png"
  /\ splitext_ext (lit "dir.d/out") = lit "".
Proof. repeat split; reflexivity. Qed.

(** ** [check_filename] *)

Section CheckFilename.

Lemma str_eqb_eq (a b : str) : str_eqb a b = true <-> a = b.
Proof.
  unfold str_eqb. destruct (list_eq_dec ascii_dec a b); split; congruence.
Qed.

Lemma str_eqb_refl (a : str) : str_eqb a a = true.
Proof. now apply str_eqb_eq. Qed.

Lemma lower_char_idempotent (c : ascii) :
  lower_char (lower_char c) = lower_char c.
Proof.
  destruct c as [b0 b1 b2 b3 b4 b5 b6 b7].
  destruct b0, b1, b2, b3, b4, b5, b6, b7; reflexivity.
Qed.

Lemma lower_idempotent (s : str) : lower (lower s) = lower s.
Proof.
  unfold lower. rewrite map_map. apply map_ext. exact lower_char_idempotent.
Qed.

Lemma lower_length (s : str) : length (lower s) = length s.
Proof. apply length_map. Qed.

Lemma last_opt_snoc (p : str) (c : ascii) : last_opt (p ++ [c]) = Some c.
Proof.
  induction p as [|a p IH]; [reflexivity|].
  simpl. rewrite IH. destruct (p ++ [c]) eqn:E; [|reflexivity].
  now destruct p.
Qed.

Lemma snoc_cases {A : Type} (s : list A) : s = [] \/ exists p c, s = p ++ [c].
Proof.
  destruct s as [|a s]; [now left|right].
  destruct (@exists_last _ (a :: s)) as [p [c E]]; [discriminate|eauto].
Qed.

(** A path made of slashes alone is emptied by the loop, whose next test
    then indexes the empty string. *)
Lemma strip_slashes_only (fuel : nat) :
  forall s, only_slashes s -> (length s < fuel)%nat ->
            strip_slashes fuel s = Raise IndexError.
Proof.
  induction fuel as [|fuel IH]; intros s Hs Hlen; [lia|].
  destruct (snoc_cases s) as [-> | [p [c ->]]]; [reflexivity|].
  apply Forall_app in Hs. destruct Hs as [Hp Hc].
  inversion Hc as [|? ? Hslash _]; subst.
  simpl. unfold index_last. rewrite last_opt_snoc. simpl.
  rewrite Hslash, removelast_last. apply IH; [assumption|].
  rewrite last_length in Hlen. lia.
Qed.

(** A path with a character that is not a slash keeps everything up to
    its last such character. *)
Lemma strip_slashes_name (fuel : nat) :
  forall s, has_name_char s -> (length s < fuel)%nat ->
            exists r q, strip_slashes fuel s = Ok r /\ s = r ++ q
                        /\ only_slashes q /\ has_name_char r.
Proof.
  induction fuel as [|fuel IH]; intros s Hs Hlen; [lia|].
  destruct (snoc_cases s) as [-> | [p [c ->]]]; [inversion Hs|].
  simpl. unfold index_last. rewrite last_opt_snoc. simpl.
  destruct (is_slash c) eqn:Hc.
  - rewrite removelast_last.
    apply Exists_app in Hs. destruct Hs as [Hp | Hl].
    + rewrite last_length in Hlen.
      destruct (IH p Hp ltac:(lia)) as [r [q [E [-> [Hq Hr]]]]].
      exists r, (q ++ [c]). repeat split; try assumption.
      * now rewrite app_assoc.
      * apply Forall_app. split; [assumption|]. now constructor.
    + inversion Hl as [? ? H | ? ? H]; subst; [congruence|inversion H].
  - exists (p ++ [c]), []. repeat split.
    + now rewrite app_nil_r.
    + constructor.
    + apply Exists_app. right. now constructor.
Qed.

Lemma In_skipn {A : Type} (n : nat) (l : list A) (x : A) :
  In x (skipn n l) -> In x l.
Proof.
  intros H. rewrite <- (firstn_skipn n l). apply in_or_app. now right.
Qed.

(** The loop never runs out of fuel. *)
Lemma strip_slashes_fuel (s : str) :
  strip_slashes (S (length s)) s <> OutOfFuel.
Proof.
  destruct (Exists_dec (fun c => is_slash c = false) s) as [Hname | Hnone].
  - intros c. destruct (is_slash c); [right|left]; congruence.
  - destruct (strip_slashes_name (S (length s)) s Hname) as [r [q [E _]]];
      [lia|]. rewrite E. discriminate.
  - rewrite strip_slashes_only; [discriminate| |lia].
    apply Forall_forall. intros c Hc.
    destruct (is_slash c) eqn:E; [reflexivity|].
    exfalso. apply Hnone. apply Exists_exists. eauto.
Qed.

Lemma check_filename_fuel (filepath extension : str) :
  check_filename filepath extension <> OutOfFuel.
Proof.
  unfold check_filename.
  destruct (index_first extension) as [c0| |] eqn:E0; cbn [bind];
    [|discriminate|destruct extension; discriminate].
  destruct (negb (Ascii.eqb c0 period)); [discriminate|].
  destruct (negb (str_eqb _ _)); [|discriminate].
  pose proof (strip_slashes_fuel filepath) as Hfuel.
  destruct (strip_slashes _ filepath); cbn [bind]; congruence.
Qed.

Lemma is_slash_lower_period (c : ascii) :
  is_slash c = true -> lower_char c <> period.
Proof.
  unfold is_slash. rewrite orb_true_iff, !Ascii.eqb_eq.
  intros [-> | ->]; discriminate.
Qed.

(** A path of slashes never already carries an extension, since an
    extension starts with a period. *)
Lemma only_slashes_no_extension (filepath extension : str) :
  only_slashes filepath -> starts_with_period extension ->
  lower (slice_last (length extension) filepath) <> lower extension.
Proof.
  intros Hs [rest ->] E.
  assert (Hin : In period (lower (slice_last (length (period :: rest)) filepath))).
  { rewrite E. now left. }
  apply in_map_iff in Hin. destruct Hin as [c [Hc Hin]].
  assert (Hfp : In c filepath).
  { simpl in Hin. eapply In_skipn; eauto. }
  unfold only_slashes in Hs. rewrite Forall_forall in Hs.
  exact (is_slash_lower_period c (Hs c Hfp) Hc).
Qed.

End CheckFilename.

(** C10. A non-empty path made only of ['/'] and ['\'], whose ending does
    not already match the extension, makes [check_filename] fail: the
    stripping loop empties the path and its next [filepath[-1]] raises
    [IndexError]. *)
Theorem check_filename_only_slashes_fails (filepath extension : str) :
  filepath <> [] ->
  only_slashes filepath ->
  starts_with_period extension ->
  lower (slice_last (length extension) filepath) <> lower extension ->
  strip_slashes (S (length filepath)) filepath = Raise IndexError
  /\ check_filename filepath extension = Raise IndexError.
Proof.
  intros _ Hs Hext Hneq.
  assert (Hloop : strip_slashes (S (length filepath)) filepath = Raise IndexError).
  { apply strip_slashes_only; [assumption|lia]. }
  split; [assumption|].
  destruct Hext as [rest ->].
  unfold check_filename. cbn [index_first bind].
  rewrite Ascii.eqb_refl. cbn [negb].
  destruct (str_eqb _ _) eqn:E.
  - apply str_eqb_eq in E. contradiction.
  - cbn [negb]. now rewrite Hloop.
Qed.

Lemma check_filename_only_slashes_fails_witness :
  strip_slashes 3 (lit "/\") = Raise IndexError
  /\ check_filename (lit "/\") (lit ".png") = Raise IndexError.
Proof.
  apply (check_filename_only_slashes_fails (lit "/\") (lit ".png")).
  - discriminate.
  - repeat constructor.
  - exists (lit "png"). reflexivity.
  - discriminate.
Defined.

Lemma endswith_app (stem suffix : str) : endswith (stem ++ suffix) suffix = true.
Proof.
  unfold endswith. rewrite length_app.
  replace (length stem + length suffix - length suffix)%nat with (length stem) by lia.
  rewrite skipn_app, skipn_all, Nat.sub_diag. simpl.
  rewrite str_eqb_refl, andb_true_r. apply Nat.leb_le. lia.
Qed.

(** A complete run of [check_filename]. *)
Lemma check_filename_run (filepath extension : str) :
  has_name_char filepath ->
  starts_with_period extension ->
  exists r, check_filename filepath extension = Ok r
            /\ endswith (lower r) (lower extension) = true
            /\ (r = filepath \/ endswith r (lower extension) = true).
Proof.
  intros Hname [rest ->].
  unfold check_filename. cbn [index_first bind].
  rewrite Ascii.eqb_refl. cbn [negb].
  destruct (str_eqb _ _) eqn:E; cbn [negb].
  - exists filepath. split; [reflexivity|]. split; [|now left].
    apply str_eqb_eq in E. cbn [slice_last length] in E.
    assert (Hlen : (length (period :: rest) <= length filepath)%nat).
    { apply (f_equal (@length ascii)) in E.
      rewrite !lower_length, length_skipn in E. simpl in E |- *. lia. }
    unfold endswith. rewrite !lower_length.
    apply andb_true_iff. split; [now apply Nat.leb_le|].
    apply str_eqb_eq. unfold lower at 1. rewrite skipn_map. exact E.
  - destruct (strip_slashes_name (S (length filepath)) filepath Hname)
      as [r [q [Hr _]]]; [lia|].
    rewrite Hr. cbn [bind].
    exists (r ++ lower (period :: rest)). split; [reflexivity|]. split.
    + unfold lower at 1. rewrite map_app. fold (lower r).
      fold (lower (lower (period :: rest))). rewrite lower_idempotent.
      apply endswith_app.
    + right. apply endswith_app.
Qed.

Lemma slashes_or_name (s : str) : only_slashes s \/ has_name_char s.
Proof.
  induction s as [|c s [IH|IH]].
  - left. constructor.
  - destruct (is_slash c) eqn:E.
    + left. now constructor.
    + right. now apply Exists_cons_hd.
  - right. now apply Exists_cons_tl.
Qed.

Lemma slashes_not_name (s : str) : only_slashes s -> has_name_char s -> False.
Proof.
  intros Hs Hn. apply Exists_exists in Hn. destruct Hn as [c [Hc Hn]].
  unfold only_slashes in Hs. rewrite Forall_forall in Hs.
  specialize (Hs c Hc). congruence.
Qed.

Lemma check_filename_slashes (filepath extension : str) :
  only_slashes filepath -> starts_with_period extension ->
  check_filename filepath extension = Raise IndexError.
Proof.
  intros Hs Hext.
  pose proof (only_slashes_no_extension filepath extension Hs Hext) as Hneq.
  destruct Hext as [rest ->].
  unfold check_filename. cbn [index_first bind].
  rewrite Ascii.eqb_refl. cbn [negb].
  destruct (str_eqb _ _) eqn:E.
  - apply str_eqb_eq in E. contradiction.
  - cbn [negb]. rewrite strip_slashes_only; [reflexivity|assumption|lia].
Qed.

Lemma check_filename_no_period (filepath : str) (c : ascii) (rest : str) :
  c <> period -> check_filename filepath (c :: rest) = Raise ValueError.
Proof.
  intros Hc. unfold check_filename. cbn [index_first bind].
  destruct (Ascii.eqb_spec c period); [contradiction|reflexivity].
Qed.

Lemma check_filename_ok_inv (filepath extension r : str) :
  check_filename filepath extension = Ok r ->
  starts_with_period extension /\ has_name_char filepath.
Proof.
  intros H. destruct extension as [|c rest]; [discriminate|].
  destruct (Ascii.eqb_spec c period) as [->|Hc].
  - split; [now exists rest|].
    destruct (slashes_or_name filepath) as [Hs|Hn]; [|assumption].
    rewrite check_filename_slashes in H; [discriminate|assumption|now exists rest].
  - rewrite check_filename_no_period in H by assumption. discriminate.
Qed.

(** C7, as the code has it.  For a path with at least one character other
    than ['/'] and ['\'] and an extension starting with ['.'],
    [check_filename] returns a string that ends with the extension when
    letter case is ignored: either the path itself, which already did, or a
    string ending in the lower-cased extension. *)
Theorem check_filename_extension (filepath extension : str) :
  has_name_char filepath ->
  starts_with_period extension ->
  exists r, check_filename filepath extension = Ok r
            /\ endswith (lower r) (lower extension) = true
            /\ (r = filepath \/ endswith r (lower extension) = true).
Proof. exact (check_filename_run filepath extension). Qed.

Lemma check_filename_extension_witness :
  exists r, check_filename (lit "dir/out//") (lit ".PNG") = Ok r
            /\ endswith (lower r) (lower (lit ".PNG")) = true
            /\ (r = lit "dir/out//" \/ endswith r (lower (lit ".PNG")) = true).
Proof.
  apply (check_filename_extension (lit "dir/out//") (lit ".PNG")).
  - unfold has_name_char. apply Exists_cons_hd. reflexivity.
  - exists (lit "PNG"). reflexivity.
Defined.

(** C7 as stated fails.  A path that already ends in the extension in
    another letter case is returned unchanged, so the result does not end
    with the required suffix; and the non-empty path ["/"] gives no result
    at all. *)
Lemma check_filename_suffix_counterexample :
  (lit "a.PNG" <> [] /\ starts_with_period (lit ".png")
   /\ check_filename (lit "a.PNG") (lit ".png") = Ok (lit "a.PNG")
   /\ endswith (lit "a.PNG") (lit ".png") = false)
  /\ (lit "/" <> [] /\ check_filename (lit "/") (lit ".png") = Raise IndexError).
Proof.
  repeat split; try discriminate.
  exists (lit "png"). reflexivity.
Qed.

(** ** [convert_char_to_int] *)

(** C3. For a limit of at least 2 every character maps to a value in
    [1, limit - 1], never to 0, and a code point that is a multiple of the
    limit maps to exactly 1. *)
Theorem convert_char_to_int_range (c : char) (limit : Z) :
  2 <= limit ->
  exists value, convert_char_to_int c limit = Ok value
                /\ 1 <= value <= limit - 1
                /\ value <> 0
                /\ (ord c mod limit = 0 -> value = 1).
Proof.
  intros Hlimit. unfold convert_char_to_int, pixel_value.
  destruct (Z.eqb_spec limit 0) as [->|_]; [lia|].
  pose proof (Z.mod_pos_bound (ord c) limit ltac:(lia)) as Hmod.
  eexists. split; [reflexivity|].
  destruct (Z.eqb_spec (ord c mod limit) 0) as [E|E]; repeat split; lia.
Qed.

Lemma convert_char_to_int_range_witness :
  exists value, convert_char_to_int 256%N 256 = Ok value
                /\ 1 <= value <= 256 - 1
                /\ value <> 0
                /\ (ord 256%N mod 256 = 0 -> value = 1).
Proof.
  apply (convert_char_to_int_range 256%N 256). lia.
Defined.

(** ** Sorting and strictly ascending lists *)

Section Ascending.

Lemma insert_In (x y : Z) (l : list Z) : In x (insert y l) <-> x = y \/ In x l.
Proof.
  induction l as [|z l IH]; simpl.
  - intuition.
  - destruct (y <=? z); simpl; rewrite ?IH; intuition.
Qed.

Lemma sorted_In (x : Z) (l : list Z) : In x (sorted l) <-> In x l.
Proof.
  induction l as [|y l IH]; simpl; [reflexivity|].
  rewrite insert_In, IH. intuition.
Qed.

Lemma insert_ascending (x : Z) (l : list Z) :
  ascending l -> ~ In x l -> ascending (insert x l).
Proof.
  unfold ascending. induction l as [|y l IH]; intros Hs Hx; simpl.
  - repeat constructor.
  - inversion Hs as [|? ? Hl Hy]; subst.
    destruct (Z.leb_spec x y) as [Hle|Hlt].
    + assert (x < y) by (simpl in Hx; lia).
      constructor; [assumption|]. constructor; [assumption|].
      eapply Forall_impl; [|exact Hy]. simpl. intros; lia.
    + constructor.
      * apply IH; [assumption|]. simpl in Hx. tauto.
      * apply Forall_forall. intros z Hz. apply insert_In in Hz.
        destruct Hz as [->|Hz]; [assumption|].
        rewrite Forall_forall in Hy. now apply Hy.
Qed.

Lemma sorted_ascending (l : list Z) : NoDup l -> ascending (sorted l).
Proof.
  induction 1 as [|x l Hx Hl IH]; simpl.
  - constructor.
  - apply insert_ascending; [assumption|]. now rewrite sorted_In.
Qed.

(** Two strictly ascending lists with the same elements are equal. *)
Lemma ascending_unique (l1 : list Z) :
  forall l2, ascending l1 -> ascending l2 ->
             (forall x, In x l1 <-> In x l2) -> l1 = l2.
Proof.
  unfold ascending.
  induction l1 as [|a l1 IH]; intros [|b l2] H1 H2 Hin.
  - reflexivity.
  - destruct (proj2 (Hin b)). now left.
  - destruct (proj1 (Hin a)). now left.
  - inversion H1 as [|? ? Hs1 Ha]; inversion H2 as [|? ? Hs2 Hb]; subst.
    rewrite Forall_forall in Ha, Hb.
    assert (a = b).
    { destruct (proj1 (Hin a) (or_introl eq_refl)) as [E|E]; [congruence|].
      destruct (proj2 (Hin b) (or_introl eq_refl)) as [E'|E']; [congruence|].
      specialize (Ha _ E'). specialize (Hb _ E). lia. }
    subst b. f_equal. apply IH; try assumption.
    intros x. split; intros Hx.
    + destruct (proj1 (Hin x) (or_intror Hx)) as [E|E]; [|assumption].
      specialize (Ha _ Hx). lia.
    + destruct (proj2 (Hin x) (or_intror Hx)) as [E|E]; [|assumption].
      specialize (Hb _ Hx). lia.
Qed.

Lemma ascending_app (l1 l2 : list Z) :
  ascending l1 -> ascending l2 ->
  (forall x y, In x l1 -> In y l2 -> x < y) ->
  ascending (l1 ++ l2).
Proof.
  unfold ascending. induction l1 as [|a l1 IH]; intros H1 H2 H; simpl.
  - assumption.
  - inversion H1 as [|? ? Hs Ha]; subst. constructor.
    + apply IH; try assumption. intros x y Hx Hy. apply H; [now right|assumption].
    + apply Forall_app. split; [assumption|].
      apply Forall_forall. intros y Hy. apply H; [now left|assumption].
Qed.

(** Reversing the image of an ascending list under a decreasing map gives
    an ascending list. *)
Lemma ascending_rev_map (g : Z -> Z) (l : list Z) :
  ascending l ->
  (forall x y, In x l -> In y l -> x < y -> g y < g x) ->
  ascending (rev (map g l)).
Proof.
  induction l as [|a l IH]; intros Hs Hg; simpl.
  - constructor.
  - inversion Hs as [|? ? Hl Ha]; subst. rewrite Forall_forall in Ha.
    apply ascending_app.
    + apply IH; [assumption|].
      intros x y Hx Hy. apply Hg; now right.
    + repeat constructor.
    + intros x y Hx [<-|[]]. apply in_rev, in_map_iff in Hx.
      destruct Hx as [z [<- Hz]].
      apply Hg; [now left|now right|now apply Ha].
Qed.

Lemma ascending_nth (l : list Z) :
  ascending l ->
  forall i j, (i < j < length l)%nat -> nth i l 0 < nth j l 0.
Proof.
  induction 1 as [|a l Hs IH Ha]; intros i j Hij; simpl in Hij; [lia|].
  rewrite Forall_forall in Ha.
  destruct j as [|j]; [lia|]. destruct i as [|i]; simpl.
  - apply Ha, nth_In. lia.
  - apply IH. lia.
Qed.

End Ascending.

(** ** [_factors] *)

Section Factors.

Lemma range_In (lo hi i : Z) : In i (range lo hi) <-> lo <= i < hi.
Proof.
  unfold range. rewrite in_map_iff. split.
  - intros [k [<- Hk]]. apply in_seq in Hk. lia.
  - intros H. exists (Z.to_nat (i - lo)). split; [lia|]. apply in_seq. lia.
Qed.

Lemma fold_left_app_concat (ls : list (list Z)) :
  forall l, fold_left (@app Z) ls l = l ++ concat ls.
Proof.
  induction ls as [|l' ls IH]; intros l; simpl.
  - now rewrite app_nil_r.
  - now rewrite IH, app_assoc.
Qed.

Lemma reduce_add_concat (ls : list (list Z)) :
  ls <> [] -> reduce_add ls = Ok (concat ls).
Proof.
  destruct ls as [|l ls]; [congruence|]. intros _. simpl.
  now rewrite fold_left_app_concat.
Qed.

(** The members of the concatenated pairs: a small divisor [i] or its
    cofactor [number // i]. *)
Lemma factor_pairs_In (number d : Z) :
  In d (concat (factor_pairs number)) <->
  exists i, 1 <= i <= isqrt number /\ number mod i = 0
            /\ (d = i \/ d = number / i).
Proof.
  unfold factor_pairs. rewrite in_concat. split.
  - intros [l [Hl Hd]]. apply in_map_iff in Hl. destruct Hl as [i [<- Hi]].
    apply filter_In in Hi. destruct Hi as [Hr Hm].
    apply range_In in Hr. apply Z.eqb_eq in Hm.
    exists i. simpl in Hd. intuition lia.
  - intros [i [Hi [Hm Hd]]]. exists [i; number / i]. split.
    + apply in_map_iff. exists i. split; [reflexivity|].
      apply filter_In. split; [apply range_In; lia|now apply Z.eqb_eq].
    + simpl. intuition.
Qed.

Lemma factor_pairs_one (number : Z) :
  1 <= number -> In 1 (concat (factor_pairs number)).
Proof.
  intros Hn. apply factor_pairs_In. exists 1.
  assert (1 <= isqrt number) by (unfold isqrt; apply Z.sqrt_le_square; lia).
  pose proof (Z.mod_1_r number). intuition lia.
Qed.

Lemma factor_pairs_nonempty (number : Z) :
  1 <= number -> factor_pairs number <> [].
Proof.
  intros Hn E. pose proof (factor_pairs_one number Hn) as H1.
  rewrite E in H1. inversion H1.
Qed.

Lemma _factors_divisor_list (number : Z) :
  1 <= number ->
  exists f, _factors number = Ok f /\ divisor_list number f.
Proof.
  intros Hn. unfold _factors.
  destruct (Z.ltb_spec number 0) as [|_]; [lia|].
  rewrite reduce_add_concat by now apply factor_pairs_nonempty.
  cbn [bind]. eexists. split; [reflexivity|].
  assert (Hin : forall d, In d (sorted (set (concat (factor_pairs number))))
                          <-> In d (concat (factor_pairs number))).
  { intros d. unfold set. now rewrite sorted_In, nodup_In. }
  constructor.
  - apply sorted_ascending, NoDup_nodup.
  - intros E. pose proof (factor_pairs_one number Hn) as H1.
    apply Hin in H1. rewrite E in H1. inversion H1.
  - intros d Hd. rewrite Hin in Hd |- *.
    apply factor_pairs_In in Hd. destruct Hd as [i [Hi [Hm Hd]]].
    assert (Hmul : number = i * (number / i)) by (apply Z.div_exact; lia).
    assert (Hq : 1 <= number / i) by nia.
    destruct Hd as [-> | ->].
    + repeat split; try lia.
      apply factor_pairs_In. exists i. intuition.
    + assert (Hback : number / (number / i) = i).
      { rewrite Hmul at 1. apply Z.div_mul. lia. }
      rewrite Hback. repeat split; try lia.
      apply factor_pairs_In. exists i. intuition.
Qed.

(** The cofactor map reverses a divisor list onto itself. *)
Lemma divisor_list_rev (number : Z) (f : list Z) :
  1 <= number -> divisor_list number f ->
  rev (map (fun d => number / d) f) = f.
Proof.
  intros Hn [Hasc _ Hco]. apply ascending_unique.
  - apply ascending_rev_map; [assumption|].
    intros x y Hx Hy Hxy.
    destruct (Hco x Hx) as [Hx1 [Hxm _]].
    destruct (Hco y Hy) as [Hy1 [Hym _]].
    generalize dependent (number / x). generalize dependent (number / y).
    intros b Hb a Ha.
    assert (1 <= a) by nia.
    destruct (Z.lt_ge_cases b a) as [|Hab]; [assumption|exfalso].
    assert (y * a <= y * b) by (apply Z.mul_le_mono_nonneg_l; lia).
    assert (x * a < y * a) by (apply Z.mul_lt_mono_pos_r; lia).
    lia.
  - assumption.
  - intros x. rewrite <- in_rev, in_map_iff. split.
    + intros [d [<- Hd]]. now apply Hco.
    + intros Hx. exists (number / x). destruct (Hco x Hx) as [Hx1 [Hxm Hxi]].
      split; [|assumption].
      rewrite <- Hxm at 1. apply Z.div_mul.
      destruct (Hco _ Hxi) as [? _]. lia.
Qed.

(** Divisors at mirrored positions multiply to the number. *)
Lemma divisor_list_mirror (number : Z) (f : list Z) (i : nat) :
  1 <= number -> divisor_list number f -> (i < length f)%nat ->
  nth i f 0 * nth (length f - S i) f 0 = number.
Proof.
  intros Hn Hf Hi.
  pose proof (divisor_list_rev number f Hn Hf) as Hrev.
  assert (E : nth (length f - S i) f 0 = number / nth i f 0).
  { pose proof (rev_nth (map (fun d => number / d) f) 0
                        (n := length f - S i)) as Hnth.
    rewrite Hrev, length_map in Hnth. rewrite Hnth by lia.
    replace (length f - S (length f - S i))%nat with i by lia.
    rewrite (nth_indep _ 0 ((fun d => number / d) 0))
      by (rewrite length_map; lia).
    now rewrite map_nth. }
  rewrite E. apply (dl_cofactor _ _ Hf). apply nth_In. assumption.
Qed.

End Factors.

(** ** [get_image_size] *)

Section ImageSize.

Lemma trim_to_two_eq (fuel : nat) (f : list Z) :
  trim_to_two fuel f =
  if len f =? 2 then Ok f
  else match fuel with
       | O => OutOfFuel
       | S fuel' => f <- pop_first f ;; f <- pop_last f ;; trim_to_two fuel' f
       end.
Proof. destruct fuel; reflexivity. Qed.

Lemma pop_last_snoc (m : list Z) (b : Z) : pop_last (m ++ [b]) = Ok m.
Proof.
  unfold pop_last. rewrite removelast_last. destruct m; reflexivity.
Qed.

(** From a list of [2k + 2] elements the loop keeps the two in the middle;
    [k] rounds are enough. *)
Lemma trim_to_two_middle (k : nat) :
  forall fuel f, length f = (2 * k + 2)%nat -> (k <= fuel)%nat ->
                 trim_to_two fuel f = Ok [nth k f 0; nth (S k) f 0].
Proof.
  induction k as [|k IH]; intros fuel f Hlen Hfuel; rewrite trim_to_two_eq.
  - destruct f as [|a [|b [|c f]]]; simpl in Hlen; try lia. reflexivity.
  - destruct (Z.eqb_spec (len f) 2) as [E|_]; [unfold len in E; lia|].
    destruct fuel as [|fuel]; [lia|].
    destruct f as [|a tl]; [simpl in Hlen; lia|].
    destruct (@exists_last _ tl) as [m [b ->]];
      [destruct tl; [simpl in Hlen; lia|discriminate]|].
    cbn [pop_first bind]. rewrite pop_last_snoc. cbn [bind].
    change (length (a :: m ++ [b])) with (S (length (m ++ [b]))) in Hlen.
    rewrite last_length in Hlen.
    rewrite (IH fuel m) by lia.
    cbn [nth]. rewrite !app_nth1 by lia. reflexivity.
Qed.

Lemma index_nth (f : list Z) (i : nat) :
  (i < length f)%nat -> index f (Z.of_nat i) = Ok (nth i f 0).
Proof.
  intros Hi. unfold index.
  destruct (Z.ltb_spec (Z.of_nat i) 0) as [|_]; [lia|].
  rewrite Nat2Z.id.
  destruct (nth_error f i) eqn:E.
  - now rewrite (nth_error_nth _ _ _ E).
  - apply nth_error_None in E. lia.
Qed.

(** The loop never runs out of fuel: a round either raises or shortens
    the list. *)
Lemma trim_to_two_fuel (fuel : nat) :
  forall f, (length f < fuel)%nat -> trim_to_two fuel f <> OutOfFuel.
Proof.
  induction fuel as [|fuel IH]; intros f Hlen; [lia|].
  rewrite trim_to_two_eq. destruct (len f =? 2); [discriminate|].
  destruct f as [|a tl]; [discriminate|]. cbn [pop_first bind].
  destruct (snoc_cases tl) as [-> | [m [b ->]]]; [discriminate|].
  rewrite pop_last_snoc. cbn [bind]. apply IH.
  simpl in Hlen. rewrite last_length in Hlen. lia.
Qed.

Lemma get_image_size_fuel (text_length : Z) :
  get_image_size text_length <> OutOfFuel.
Proof.
  unfold get_image_size, _factors.
  destruct (true_length text_length <? 0); [discriminate|].
  destruct (reduce_add _) as [l| |] eqn:El; cbn [bind];
    [|discriminate|destruct (factor_pairs _); discriminate].
  set (f := sorted (set l)).
  destruct (negb (len f mod 2 =? 0)).
  - unfold index. destruct (len f / 2 <? 0); [discriminate|].
    destruct (nth_error f _); discriminate.
  - pose proof (trim_to_two_fuel (S (length f)) f ltac:(lia)) as Hfuel.
    destruct (trim_to_two _ f) as [g| |]; cbn [bind]; try congruence.
    unfold index. cbn [Z.ltb Z.compare Z.to_nat Pos.to_nat Pos.iter_op].
    destruct (nth_error g _); cbn [bind]; [|discriminate].
    destruct (nth_error g _); discriminate.
Qed.

Lemma len_even (f : list Z) :
  len f mod 2 = 0 -> (0 < length f)%nat ->
  exists k, length f = (2 * k + 2)%nat.
Proof.
  unfold len. intros Heven Hpos.
  exists (Z.to_nat (Z.of_nat (length f) / 2 - 1)).
  Z.div_mod_to_equations. lia.
Qed.

Lemma len_odd (f : list Z) :
  len f mod 2 <> 0 ->
  exists j, length f = (2 * j + 1)%nat /\ len f / 2 = Z.of_nat j.
Proof.
  unfold len. intros Hodd.
  exists (Z.to_nat (Z.of_nat (length f) / 2)).
  Z.div_mod_to_equations. lia.
Qed.

Lemma true_length_even (text_length : Z) :
  0 <= text_length ->
  true_length text_length mod 2 = 0 /\ 2 <= true_length text_length
  /\ text_length + 1 <= true_length text_length.
Proof.
  intros Hn. unfold true_length.
  destruct (Z.eqb_spec (text_length mod 2) 0); cbv iota;
    Z.div_mod_to_equations; lia.
Qed.

(** A complete run of [get_image_size]. *)
Lemma get_image_size_run (text_length : Z) :
  0 <= text_length ->
  exists f width height,
    _factors (true_length text_length) = Ok f
    /\ divisor_list (true_length text_length) f
    /\ get_image_size text_length = Ok (width, height)
    /\ In width f /\ In height f
    /\ height <= width
    /\ width * height = true_length text_length
    /\ (len f mod 2 = 0 -> trim_to_two (S (length f)) f = Ok [height; width]).
Proof.
  intros Hn.
  destruct (true_length_even text_length Hn) as [_ [Htl _]].
  destruct (_factors_divisor_list (true_length text_length)) as [f [Hf Hdl]];
    [lia|].
  pose proof (dl_nonempty _ _ Hdl) as Hne.
  assert (Hpos : (0 < length f)%nat) by (destruct f; [congruence|simpl; lia]).
  unfold get_image_size. rewrite Hf. cbn [bind].
  destruct (Z.eqb_spec (len f mod 2) 0) as [Heven|Hodd]; cbn [negb].
  - destruct (len_even f Heven Hpos) as [k Hlen].
    assert (Htrim : trim_to_two (S (length f)) f = Ok [nth k f 0; nth (S k) f 0]).
    { apply trim_to_two_middle; lia. }
    rewrite Htrim. cbn [bind].
    change (index [nth k f 0; nth (S k) f 0] 1) with (Ok (nth (S k) f 0)).
    change (index [nth k f 0; nth (S k) f 0] 0) with (Ok (nth k f 0)).
    cbn [bind]. exists f, (nth (S k) f 0), (nth k f 0).
    pose proof (divisor_list_mirror (true_length text_length) f k
                  ltac:(lia) Hdl ltac:(lia)) as Hm.
    replace (length f - S k)%nat with (S k) in Hm by lia.
    pose proof (ascending_nth f (dl_ascending _ _ Hdl) k (S k) ltac:(lia)).
    repeat apply conj; try assumption; try reflexivity; try lia;
      try (apply nth_In; lia); intros; assumption || contradiction.
  - destruct (len_odd f Hodd) as [j [Hlen ->]].
    rewrite index_nth by lia. cbn [bind].
    exists f, (nth j f 0), (nth j f 0).
    pose proof (divisor_list_mirror (true_length text_length) f j
                  ltac:(lia) Hdl ltac:(lia)) as Hm.
    replace (length f - S j)%nat with j in Hm by lia.
    repeat apply conj; try assumption; try reflexivity; try lia;
      try (apply nth_In; lia); intros; assumption || contradiction.
Qed.

Lemma get_image_size_bounds (text_length : Z) :
  0 <= text_length ->
  exists width height,
    get_image_size text_length = Ok (width, height)
    /\ width >= height /\ height >= 1
    /\ width * height >= text_length + 1.
Proof.
  intros Hn.
  destruct (get_image_size_run text_length Hn)
    as [f [w [h [_ [Hdl [Hsize [_ [Hh [Hle [Hmul _]]]]]]]]]].
  destruct (true_length_even text_length Hn) as [_ [_ Hroom]].
  destruct (dl_cofactor _ _ Hdl h Hh) as [Hh1 _].
  exists w, h. repeat apply conj; [assumption|lia..].
Qed.

End ImageSize.

(** C2. For every text length [>= 0], [get_image_size] returns a pair
    [(width, height)] with [width >= height >= 1] and
    [width * height >= text_length + 1]. *)
Theorem get_image_size_geometry (text_length : Z) :
  0 <= text_length ->
  exists width height,
    get_image_size text_length = Ok (width, height)
    /\ width >= height /\ height >= 1
    /\ width * height >= text_length + 1.
Proof. exact (get_image_size_bounds text_length). Qed.

Lemma get_image_size_geometry_witness :
  exists width height,
    get_image_size 5 = Ok (width, height)
    /\ width >= height /\ height >= 1
    /\ width * height >= 5 + 1.
Proof.
  apply (get_image_size_geometry 5). lia.
Defined.

(** C8. The product of the returned width and height is exactly
    [text_length + 1] for an odd length and [text_length + 2] for an even
    one: both are members of the divisor list of that number, and each is
    the cofactor of the other. *)
Theorem get_image_size_exact_product (text_length : Z) :
  0 <= text_length ->
  exists f width height,
    get_image_size text_length = Ok (width, height)
    /\ (text_length mod 2 = 1 -> width * height = text_length + 1)
    /\ (text_length mod 2 = 0 -> width * height = text_length + 2)
    /\ _factors (true_length text_length) = Ok f
    /\ In width f /\ In height f
    /\ width = true_length text_length / height.
Proof.
  intros Hn.
  destruct (get_image_size_run text_length Hn)
    as [f [w [h [Hf [Hdl [Hsize [Hw [Hh [_ [Hmul _]]]]]]]]]].
  destruct (dl_cofactor _ _ Hdl h Hh) as [Hh1 _].
  exists f, w, h. repeat apply conj; try assumption.
  - intros Hodd. rewrite Hmul. unfold true_length.
    destruct (Z.eqb_spec (text_length mod 2) 0); lia.
  - intros Heven. rewrite Hmul. unfold true_length.
    destruct (Z.eqb_spec (text_length mod 2) 0); lia.
  - rewrite <- Hmul. symmetry. apply Z.div_mul. lia.
Qed.

Lemma get_image_size_exact_product_witness :
  exists f width height,
    get_image_size 14 = Ok (width, height)
    /\ (14 mod 2 = 1 -> width * height = 14 + 1)
    /\ (14 mod 2 = 0 -> width * height = 14 + 2)
    /\ _factors (true_length 14) = Ok f
    /\ In width f /\ In height f
    /\ width = true_length 14 / height.
Proof.
  apply (get_image_size_exact_product 14). lia.
Defined.

(** C9. For every text length [>= 0], [get_image_size] terminates with a
    size: the true length is even and at least 2, its divisor list is not
    empty, and the trimming loop, run on any non-empty list of even length
    (the divisor list in particular), ends with exactly two elements within
    as many rounds as the list is long. *)
Theorem get_image_size_terminates (text_length : Z) :
  0 <= text_length ->
  true_length text_length mod 2 = 0
  /\ 2 <= true_length text_length
  /\ (exists f, _factors (true_length text_length) = Ok f
                /\ f <> []
                /\ (len f mod 2 = 0 ->
                    exists a b, trim_to_two (S (length f)) f = Ok [a; b]))
  /\ (forall g : list Z, g <> [] -> len g mod 2 = 0 ->
        exists a b, trim_to_two (S (length g)) g = Ok [a; b])
  /\ (exists width height, get_image_size text_length = Ok (width, height)).
Proof.
  intros Hn.
  destruct (true_length_even text_length Hn) as [Heven [Hge _]].
  destruct (get_image_size_run text_length Hn)
    as [f [w [h [Hf [Hdl [Hsize [_ [_ [_ [_ Htrim]]]]]]]]]].
  repeat apply conj; try assumption.
  - exists f. repeat apply conj; [assumption|exact (dl_nonempty _ _ Hdl)|].
    intros Hlen. exists h, w. now apply Htrim.
  - intros g Hg Hlen.
    assert (Hpos : (0 < length g)%nat) by (destruct g; [congruence|simpl; lia]).
    destruct (len_even g Hlen Hpos) as [k Hk].
    exists (nth k g 0), (nth (S k) g 0). apply trim_to_two_middle; lia.
  - now exists w, h.
Qed.

Lemma get_image_size_terminates_witness :
  true_length 0 mod 2 = 0
  /\ 2 <= true_length 0
  /\ (exists f, _factors (true_length 0) = Ok f
                /\ f <> []
                /\ (len f mod 2 = 0 ->
                    exists a b, trim_to_two (S (length f)) f = Ok [a; b]))
  /\ (forall g : list Z, g <> [] -> len g mod 2 = 0 ->
        exists a b, trim_to_two (S (length g)) g = Ok [a; b])
  /\ (exists width height, get_image_size 0 = Ok (width, height)).
Proof.
  apply (get_image_size_terminates 0). lia.
Defined.

(** ** The encoder's loops *)

Lemma bindM_assoc {A B C : Type} (m : M A) (k1 : A -> M B) (k2 : B -> M C)
    (w : World) :
  bindM (bindM m k1) k2 w = bindM m (fun a => bindM (k1 a) k2) w.
Proof.
  unfold bindM. destruct (m w) as [[a| |] w']; reflexivity.
Qed.

Lemma bindM_ext {A B : Type} (m : M A) (k1 k2 : A -> M B) (w : World) :
  (forall a w', k1 a w' = k2 a w') -> bindM m k1 w = bindM m k2 w.
Proof.
  intros H. unfold bindM. destruct (m w) as [[a| |] w']; [apply H|reflexivity..].
Qed.

Section EncoderLoops.

Variables (s : text) (limit text_length : Z).

Lemma encode_cells_stop (cells : list (Z * Z)) (img : Image) (ind : Z) (w : World) :
  (ind <? text_length) = false ->
  encode_cells s limit text_length cells img ind w = (Ok (img, ind), w).
Proof.
  intros H. destruct cells; simpl; [|rewrite H]; reflexivity.
Qed.

Ltac step_body :=
  unfold bindM, lift;
  destruct (index s _); try reflexivity;
  destruct (convert_char_to_int _ _); try reflexivity;
  unfold Image_putpixel;
  destruct (putpixel _ _ _); try reflexivity.

(** The inner loop, with its [break], walks the cells of one row. *)
Lemma encode_cols_cells (row : Z) (cols : list Z) :
  forall img ind w,
    encode_cols s limit text_length row cols img ind w
    = encode_cells s limit text_length (map (fun col => (row, col)) cols) img ind w.
Proof.
  induction cols as [|col cols IH]; intros img ind w; simpl; [reflexivity|].
  destruct (ind <? text_length); [|reflexivity].
  step_body. apply IH.
Qed.

Lemma encode_cells_app (cells1 cells2 : list (Z * Z)) :
  forall img ind w,
    encode_cells s limit text_length (cells1 ++ cells2) img ind w
    = bindM (encode_cells s limit text_length cells1 img ind)
            (fun '(img, ind) => encode_cells s limit text_length cells2 img ind) w.
Proof.
  induction cells1 as [|xy cells1 IH]; intros img ind w; simpl; [reflexivity|].
  destruct (ind <? text_length) eqn:E.
  - do 3 (rewrite bindM_assoc; apply bindM_ext; intros; cbv beta).
    apply IH.
  - unfold bindM, ret. now rewrite encode_cells_stop.
Qed.

(** The nested loops walk the cells in scan order. *)
Lemma encode_rows_cells (rows cols : list Z) :
  forall img ind w,
    encode_rows s limit text_length rows cols img ind w
    = encode_cells s limit text_length
        (flat_map (fun row => map (fun col => (row, col)) cols) rows) img ind w.
Proof.
  induction rows as [|row rows IH]; intros img ind w; simpl; [reflexivity|].
  rewrite encode_cells_app. unfold bindM.
  rewrite encode_cols_cells.
  destruct (encode_cells _ _ _ _ _ _ w) as [[[img' ind']|e|] w'];
    [apply IH|reflexivity..].
Qed.

End EncoderLoops.

(** ** Painting and the scan order *)

Section Raster.

Lemma xy_eqb_eq (a b : Z * Z) : xy_eqb a b = true <-> a = b.
Proof.
  destruct a as [x y], b as [x' y']. unfold xy_eqb. simpl.
  rewrite andb_true_iff, !Z.eqb_eq. split; [intros []|intros [=]]; subst; auto.
Qed.

Lemma set_pixel_same (img : Image) (xy : Z * Z) (v : Z) :
  pixel_at (set_pixel img xy v) xy = CLIP8 v.
Proof.
  simpl. now rewrite (proj2 (xy_eqb_eq xy xy) eq_refl).
Qed.

Lemma set_pixel_other (img : Image) (xy c : Z * Z) (v : Z) :
  c <> xy -> pixel_at (set_pixel img xy v) c = pixel_at img c.
Proof.
  intros Hc. simpl. destruct (xy_eqb c xy) eqn:E; [|reflexivity].
  apply xy_eqb_eq in E. contradiction.
Qed.

Lemma paint_size (cells : list (Z * Z)) :
  forall img vals, size (paint img cells vals) = size img.
Proof.
  induction cells as [|xy cells IH]; intros img [|v vals]; simpl; try reflexivity.
  now rewrite IH.
Qed.

Lemma paint_outside (cells : list (Z * Z)) (c : Z * Z) :
  ~ In c cells ->
  forall img vals, pixel_at (paint img cells vals) c = pixel_at img c.
Proof.
  induction cells as [|xy cells IH]; intros Hc img [|v vals];
    cbn [paint]; try reflexivity.
  rewrite IH by (simpl in Hc; tauto).
  apply set_pixel_other. simpl in Hc. intros ->. tauto.
Qed.

(** After painting, the cells read back the clipped values, and the cells
    that were not reached keep what they held. *)
Lemma paint_intensities (cells : list (Z * Z)) :
  NoDup cells ->
  forall img vals,
    map (pixel_at (paint img cells vals)) cells
    = map CLIP8 (firstn (length cells) vals)
      ++ map (pixel_at img) (skipn (length vals) cells).
Proof.
  induction 1 as [|xy cells Hxy Hnd IH]; intros img [|v vals];
    try reflexivity.
  cbn [paint map length firstn skipn app]. f_equal.
  - rewrite paint_outside by assumption. apply set_pixel_same.
  - rewrite IH. f_equal. apply map_ext_in. intros c Hc.
    apply set_pixel_other. intros ->. apply Hxy. eapply In_skipn; eauto.
Qed.

Lemma range_length (lo hi : Z) : length (range lo hi) = Z.to_nat (hi - lo).
Proof. unfold range. now rewrite length_map, length_seq. Qed.

Lemma range_NoDup (lo hi : Z) : NoDup (range lo hi).
Proof.
  unfold range. apply NoDup_map_NoDup_ForallPairs; [|apply seq_NoDup].
  intros x y _ _ H. lia.
Qed.

Lemma scan_In (sz : Z * Z) (x y : Z) :
  In (x, y) (scan sz) <-> (0 <= x < fst sz) /\ (0 <= y < snd sz).
Proof.
  unfold scan. rewrite in_flat_map. split.
  - intros [row [Hrow Hin]]. apply in_map_iff in Hin.
    destruct Hin as [col [[= <- <-] Hcol]].
    apply range_In in Hrow, Hcol. lia.
  - intros [Hx Hy]. exists x. split; [apply range_In; lia|].
    apply in_map_iff. exists y. split; [reflexivity|apply range_In; lia].
Qed.

Lemma scan_length (sz : Z * Z) :
  length (scan sz) = (Z.to_nat (fst sz) * Z.to_nat (snd sz))%nat.
Proof.
  unfold scan.
  rewrite (flat_map_constant_length (c := Z.to_nat (snd sz))).
  - rewrite range_length. f_equal. lia.
  - intros x _. rewrite length_map, range_length. f_equal. lia.
Qed.

Lemma scan_rows_NoDup (rows cols : list Z) :
  NoDup rows -> NoDup cols ->
  NoDup (flat_map (fun row => map (fun col => (row, col)) cols) rows).
Proof.
  intros Hrows Hcols. induction Hrows as [|row rows Hrow Hnd IH]; simpl.
  - constructor.
  - apply NoDup_app.
    + apply NoDup_map_NoDup_ForallPairs; [|assumption].
      intros x y _ _ [= ->]. reflexivity.
    + assumption.
    + intros [x y] Hin Hin'. apply in_map_iff in Hin.
      destruct Hin as [col [[= <- <-] _]].
      apply in_flat_map in Hin'. destruct Hin' as [row' [Hrow' Hin']].
      apply in_map_iff in Hin'. destruct Hin' as [col' [[= -> _] _]].
      contradiction.
Qed.

Lemma scan_NoDup (sz : Z * Z) : NoDup (scan sz).
Proof. apply scan_rows_NoDup; apply range_NoDup. Qed.

Lemma scan_in_image (img : Image) :
  Forall (fun xy => in_image img xy = true) (scan (size img)).
Proof.
  apply Forall_forall. intros [x y] Hin. apply scan_In in Hin.
  unfold in_image. simpl.
  rewrite !andb_true_iff, !Z.leb_le, !Z.ltb_lt. lia.
Qed.

End Raster.

(** ** A complete run of the encoder's loops *)

Section EncoderRun.

Lemma skipn_nth_error {A : Type} (l : list A) :
  forall n a, nth_error l n = Some a -> skipn n l = a :: skipn (S n) l.
Proof.
  induction l as [|b l IH]; intros [|n] a H; simpl in H; try discriminate.
  - now injection H as ->.
  - now apply IH.
Qed.

Lemma convert_char_to_int_ok (c : char) (limit : Z) :
  limit <> 0 -> convert_char_to_int c limit = Ok (pixel_value c limit).
Proof.
  intros H. unfold convert_char_to_int.
  destruct (Z.eqb_spec limit 0); [contradiction|reflexivity].
Qed.

(** From character [ind] on, the loops write one value per cell until the
    text or the cells run out. *)
Lemma encode_cells_run (s : text) (limit : Z) (cells : list (Z * Z)) :
  limit <> 0 \/ s = [] ->
  forall img ind w,
    Forall (fun xy => in_image img xy = true) cells ->
    let vals := map (fun c => pixel_value c limit) (skipn ind s) in
    encode_cells s limit (len s) cells img (Z.of_nat ind) w
    = (Ok (paint img cells vals,
           Z.of_nat (ind + Nat.min (length cells) (length vals))),
       mkWorldOn (files w) (journal w ++ write_events cells vals) (platform w)).
Proof.
  intros Hlimit.
  induction cells as [|xy cells IH]; intros img ind w Hin vals.
  - cbn. destruct w. unfold write_events. simpl.
    now rewrite app_nil_r, Nat.add_0_r.
  - inversion Hin as [|? ? Hxy Hcells]; subst.
    cbn [encode_cells]. unfold len.
    destruct (Z.ltb_spec (Z.of_nat ind) (Z.of_nat (length s))) as [Hlt|Hge].
    + destruct (nth_error s ind) as [c|] eqn:Ec;
        [|apply nth_error_None in Ec; lia].
      assert (Hidx : index s (Z.of_nat ind) = Ok c).
      { unfold index. destruct (Z.ltb_spec (Z.of_nat ind) 0); [lia|].
        now rewrite Nat2Z.id, Ec. }
      unfold bindM at 1. unfold lift at 1. rewrite Hidx.
      assert (Hnz : limit <> 0).
      { destruct Hlimit as [Hnz | Hnil]; [assumption|].
        subst s. simpl in Hlt. lia. }
      unfold bindM at 1. unfold lift at 1.
      rewrite (convert_char_to_int_ok c limit Hnz).
      unfold bindM at 1. unfold Image_putpixel, putpixel. rewrite Hxy.
      replace (Z.of_nat ind + 1) with (Z.of_nat (S ind)) by lia.
      rewrite (IH (set_pixel img xy (pixel_value c limit)) (S ind)) by exact Hcells.
      subst vals. rewrite (skipn_nth_error s ind c Ec).
      cbn [map paint length Nat.min log files journal].
      unfold write_events. cbn [combine map]. rewrite <- app_assoc.
      rewrite Nat.add_succ_comm. reflexivity.
    + subst vals. rewrite skipn_all2 by lia.
      cbn [map paint length Nat.min]. destruct w. unfold write_events, ret.
      cbn [combine map files journal].
      now rewrite app_nil_r, Nat.add_0_r.
Qed.

End EncoderRun.

(** ** The decoder's loops *)

Section DecoderLoops.

Variable img : Image.

Lemma decode_cols_cells (row : Z) (cols : list Z) :
  forall acc, decode_cols img row cols acc
              = decode_cells img (map (fun col => (row, col)) cols) acc.
Proof.
  induction cols as [|col cols IH]; intros acc; simpl; [reflexivity|].
  destruct (getpixel img (row, col)) as [v| |]; simpl; try reflexivity.
  destruct (negb (v =? 0)); [|apply IH].
  destruct (chr v); simpl; try reflexivity. apply IH.
Qed.

Lemma decode_cells_app (cells1 cells2 : list (Z * Z)) :
  forall acc, decode_cells img (cells1 ++ cells2) acc
              = bind (decode_cells img cells1 acc) (decode_cells img cells2).
Proof.
  induction cells1 as [|xy cells1 IH]; intros acc; simpl; [reflexivity|].
  destruct (getpixel img xy) as [v| |]; simpl; try reflexivity.
  destruct (negb (v =? 0)); [|apply IH].
  destruct (chr v); simpl; try reflexivity. apply IH.
Qed.

Lemma decode_rows_cells (rows cols : list Z) :
  forall acc,
    decode_rows img rows cols acc
    = decode_cells img
        (flat_map (fun row => map (fun col => (row, col)) cols) rows) acc.
Proof.
  induction rows as [|row rows IH]; intros acc; simpl; [reflexivity|].
  rewrite decode_cells_app, decode_cols_cells.
  destruct (decode_cells img _ acc); simpl; try reflexivity. apply IH.
Qed.

(** Over cells of the image that hold code points, the loops append one
    character per non-zero intensity and nothing for a zero. *)
Lemma decode_cells_run (cells : list (Z * Z)) :
  Forall (fun xy => in_image img xy = true) cells ->
  Forall (fun v => 0 <= v < 1114112) (map (pixel_at img) cells) ->
  forall acc,
    decode_cells img cells acc
    = Ok (acc ++ map Z.to_N (filter (fun v => negb (v =? 0))
                                    (map (pixel_at img) cells))).
Proof.
  induction cells as [|xy cells IH]; intros Hin Hcp acc; simpl.
  - now rewrite app_nil_r.
  - inversion Hin as [|? ? Hxy Hcells]; subst.
    simpl in Hcp. inversion Hcp as [|? ? Hv Hrest]; subst.
    unfold getpixel. rewrite Hxy. cbn [bind].
    destruct (negb (pixel_at img xy =? 0)).
    + unfold chr.
      destruct (Z.leb_spec 0 (pixel_at img xy)); [|lia].
      destruct (Z.ltb_spec (pixel_at img xy) 1114112); [|lia].
      cbn [andb bind map]. rewrite IH by assumption.
      now rewrite <- app_assoc.
    + now apply IH.
Qed.

End DecoderLoops.

(** ** Encoding, then decoding *)

Section Codec.

Lemma CLIP8_range (v : Z) : 0 <= CLIP8 v <= 255.
Proof.
  unfold CLIP8. destruct (Z.leb_spec v 0); [lia|].
  destruct (Z.ltb_spec v 256); lia.
Qed.

Lemma CLIP8_byte (v : Z) : 0 <= v <= 255 -> CLIP8 v = v.
Proof.
  intros Hv. unfold CLIP8. destruct (Z.leb_spec v 0); [lia|].
  destruct (Z.ltb_spec v 256); lia.
Qed.

Lemma pixel_value_pos (c : char) (limit : Z) :
  1 <= limit -> 1 <= pixel_value c limit.
Proof.
  intros Hlimit. unfold pixel_value.
  pose proof (Z.mod_pos_bound (ord c) limit ltac:(lia)).
  destruct (Z.eqb_spec (ord c mod limit) 0); lia.
Qed.

Lemma stored_pos (c : char) (limit : Z) :
  1 <= pixel_value c limit -> 1 <= stored limit c <= 255.
Proof.
  intros Hpos. unfold stored.
  pose proof (CLIP8_range (pixel_value c limit)).
  unfold CLIP8 in *. destruct (Z.leb_spec (pixel_value c limit) 0); [lia|].
  destruct (Z.ltb_spec (pixel_value c limit) 256); lia.
Qed.

Lemma map_blank (cells : list (Z * Z)) (sz : Z * Z) :
  map (pixel_at (blank sz)) cells = repeat 0 (length cells).
Proof.
  induction cells as [|xy cells IH]; [reflexivity|].
  cbn [map length repeat]. now rewrite IH.
Qed.

Lemma lookup_head (p : str) (img : Image) (fs : list (str * Image)) :
  lookup p ((p, img) :: fs) = Some img.
Proof. simpl. now rewrite str_eqb_refl. Qed.

Lemma filter_nonzero_zeros (n : nat) : filter nonzero (repeat 0 n) = [].
Proof. induction n; simpl; auto. Qed.

(** A complete run of [encode] on a string. *)
Lemma encode_run (s : text) (image_path : str) (limit : Z) (w : World)
    (result_path : str) :
  limit <> 0 \/ s = [] ->
  check_filename image_path (lit ".png") = Ok result_path ->
  exists width height,
    get_image_size (len s) = Ok (width, height)
    /\ (length s < length (scan (width, height)))%nat
    /\ encode (PyStr s) image_path limit w
       = match save_error (platform w) result_path with
         | Some e =>
             (Raise (exn_of_io_error e),
              mkWorldOn (files w)
                (journal w
                 ++ Allocated (width, height)
                    :: write_events (scan (width, height))
                                    (map (fun c => pixel_value c limit) s))
                (platform w))
         | None =>
             (Ok result_path,
              mkWorldOn
                ((result_path, encoded_image s limit (width, height)) :: files w)
                (journal w
                 ++ Allocated (width, height)
                    :: write_events (scan (width, height))
                                    (map (fun c => pixel_value c limit) s)
                 ++ [Saved result_path])
                (platform w))
         end.
Proof.
  intros Hlimit Hp.
  destruct (get_image_size_bounds (len s)) as [wd [ht [Hsize [Hwh [Hht Hroom]]]]];
    [unfold len; lia|].
  exists wd, ht. repeat apply conj; try assumption.
  - rewrite scan_length. cbn [fst snd]. unfold len in Hroom.
    rewrite <- Z2Nat.inj_mul by lia. lia.
  - unfold encode. unfold bindM at 1. unfold lift at 1. rewrite Hsize.
    unfold bindM at 1. unfold lift at 1. rewrite Hp.
    unfold bindM at 1. unfold Image_new. cbn [fst snd].
    destruct (Z.ltb_spec wd 0); [lia|]. destruct (Z.ltb_spec ht 0); [lia|].
    cbn [orb]. unfold bindM at 1.
    rewrite encode_rows_cells.
    change (flat_map _ (range 0 wd)) with (scan (wd, ht)).
    pose proof (encode_cells_run s limit (scan (wd, ht)) Hlimit
                  (blank (wd, ht)) 0%nat (log (Allocated (wd, ht)) w)
                  (scan_in_image (blank (wd, ht)))) as Hrun.
    cbv zeta in Hrun. cbn [Z.of_nat skipn Nat.add] in Hrun. rewrite Hrun.
    unfold bindM, Image_save, ret, log. cbn [files journal platform].
    unfold encoded_image.
    destruct (save_error (platform w) result_path);
      rewrite <- !app_assoc; reflexivity.
Qed.

Lemma encoded_image_size (s : text) (limit : Z) (sz : Z * Z) :
  size (encoded_image s limit sz) = sz.
Proof. unfold encoded_image. now rewrite paint_size. Qed.

(** The encoded raster in scan order: one stored value per character, then
    zeros. *)
Lemma encoded_image_intensities (s : text) (limit : Z) (sz : Z * Z) :
  (length s <= length (scan sz))%nat ->
  intensities (encoded_image s limit sz)
  = map (stored limit) s ++ repeat 0 (length (scan sz) - length s).
Proof.
  intros Hlen. unfold intensities. rewrite encoded_image_size.
  unfold encoded_image. rewrite paint_intensities by apply scan_NoDup.
  rewrite firstn_all2 by (rewrite length_map; lia).
  rewrite map_map, map_blank, length_skipn, length_map. reflexivity.
Qed.

(** [decode] of a saved raster whose intensities are code points. *)
Lemma decode_saved (image_path : str) (img : Image) (w : World) :
  lookup image_path (files w) = Some img ->
  Forall (fun v => 0 <= v < 1114112) (intensities img) ->
  decode image_path w
  = (Ok (map Z.to_N (filter nonzero (intensities img))), w).
Proof.
  intros Hfile Hcp. unfold decode, bindM, Image_open. rewrite Hfile.
  unfold lift. rewrite decode_rows_cells. fold (scan (size img)).
  rewrite decode_cells_run; [reflexivity|apply scan_in_image|exact Hcp].
Qed.

Lemma pixel_values_pos (s : text) (limit : Z) :
  1 <= limit -> Forall (fun c => 1 <= pixel_value c limit) s.
Proof.
  intros Hlimit. apply Forall_forall. intros c _.
  now apply pixel_value_pos.
Qed.

Lemma filter_nonzero_all (l : list Z) :
  Forall (fun v => 1 <= v) l -> filter nonzero l = l.
Proof.
  induction 1 as [|v l Hv Hl IH]; simpl; [reflexivity|].
  unfold nonzero at 1. destruct (Z.eqb_spec v 0); [lia|]. simpl. now rewrite IH.
Qed.

Lemma Forall_repeat {A : Type} (P : A -> Prop) (a : A) (n : nat) :
  P a -> Forall P (repeat a n).
Proof. intros H. induction n; simpl; constructor; assumption. Qed.

(** What [encode] saves for a string whose characters all get a positive
    value, and what [decode] makes of it: one character per character of
    the text, the one whose code point is the stored value. *)
Lemma decode_encode (s : text) (image_path : str) (limit : Z) (w : World)
    (result_path : str) :
  limit <> 0 \/ s = [] ->
  Forall (fun c => 1 <= pixel_value c limit) s ->
  check_filename image_path (lit ".png") = Ok result_path ->
  can_save w result_path ->
  exists w' img,
    encode (PyStr s) image_path limit w = (Ok result_path, w')
    /\ lookup result_path (files w') = Some img
    /\ (length s < length (scan (size img)))%nat
    /\ intensities img
       = map (stored limit) s ++ repeat 0 (length (scan (size img)) - length s)
    /\ decode result_path w'
       = (Ok (map (fun c => Z.to_N (stored limit c)) s), w')
    /\ platform w' = platform w.
Proof.
  intros Hlimit Hpos Hpath Hsave. rewrite Forall_forall in Hpos.
  destruct (encode_run s image_path limit w result_path Hlimit Hpath)
    as [wd [ht [_ [Hlen Hrun]]]].
  unfold can_save in Hsave. rewrite Hsave in Hrun.
  pose proof (encoded_image_intensities s limit (wd, ht) ltac:(lia)) as Hint.
  eexists _, (encoded_image s limit (wd, ht)).
  split; [exact Hrun|]. cbn [files platform].
  rewrite encoded_image_size.
  repeat apply conj; try assumption; try reflexivity.
  - apply lookup_head.
  - rewrite (decode_saved result_path (encoded_image s limit (wd, ht))).
    + rewrite Hint, filter_app, filter_nonzero_zeros, app_nil_r.
      rewrite filter_nonzero_all, map_map; [reflexivity|].
      apply Forall_forall. intros v Hv. apply in_map_iff in Hv.
      destruct Hv as [c [<- Hc]]. apply (stored_pos c limit (Hpos c Hc)).
    + apply lookup_head.
    + rewrite Hint. apply Forall_app. split.
      * apply Forall_forall. intros v Hv. apply in_map_iff in Hv.
        destruct Hv as [c [<- Hc]].
        pose proof (stored_pos c limit (Hpos c Hc)). lia.
      * apply Forall_repeat. lia.
Qed.

End Codec.

(** ** Neither [encode] nor [decode] runs out of fuel *)

Section Totality.

Lemma index_fuel {A : Type} (l : list A) (i : Z) : index l i <> OutOfFuel.
Proof.
  unfold index. destruct (i <? 0); [discriminate|].
  destruct (nth_error l _); discriminate.
Qed.

Lemma encode_cells_fuel (s : text) (limit text_length : Z) (cells : list (Z * Z)) :
  forall img ind w,
    fst (encode_cells s limit text_length cells img ind w) <> OutOfFuel.
Proof.
  induction cells as [|xy cells IH]; intros img ind w; cbn [encode_cells];
    [discriminate|].
  destruct (ind <? text_length); [|discriminate].
  unfold bindM at 1. unfold lift at 1.
  pose proof (index_fuel s ind) as Hidx.
  destruct (index s ind) as [c| |]; [|discriminate|congruence].
  unfold bindM at 1. unfold lift at 1. unfold convert_char_to_int.
  destruct (limit =? 0); [discriminate|].
  unfold bindM at 1. unfold Image_putpixel, putpixel.
  destruct (in_image img xy); [apply IH|discriminate].
Qed.

Lemma encode_fuel (text : pyval) (image_path : str) (limit : Z) (w : World) :
  fst (encode text image_path limit w) <> OutOfFuel.
Proof.
  destruct text as [| | | |s|]; try discriminate.
  unfold encode. unfold bindM at 1. unfold lift at 1.
  pose proof (get_image_size_fuel (len s)) as Hsize.
  destruct (get_image_size (len s)) as [sz| |]; [|discriminate|congruence].
  unfold bindM at 1. unfold lift at 1.
  pose proof (check_filename_fuel image_path (lit ".png")) as Hpath.
  destruct (check_filename image_path (lit ".png")) as [p| |];
    [|discriminate|congruence].
  unfold bindM at 1. unfold Image_new.
  destruct ((fst sz <? 0) || (snd sz <? 0)); [discriminate|].
  unfold bindM at 1. rewrite encode_rows_cells.
  pose proof (encode_cells_fuel s limit (len s)
                (flat_map (fun row => map (fun col => (row, col)) (range 0 (snd sz)))
                          (range 0 (fst sz)))
                (blank sz) 0 (log (Allocated sz) w)) as Hloop.
  destruct (encode_cells _ _ _ _ _ _ _) as [[[img ind]| |] w'];
    [|discriminate|now cbn in Hloop].
  cbn. unfold bindM, Image_save.
  destruct (save_error (platform w') p); discriminate.
Qed.

Lemma decode_cells_fuel (img : Image) (cells : list (Z * Z)) :
  forall acc, decode_cells img cells acc <> OutOfFuel.
Proof.
  induction cells as [|xy cells IH]; intros acc; cbn [decode_cells];
    [discriminate|].
  unfold getpixel. destruct (in_image img xy); cbn [bind]; [|discriminate].
  destruct (negb (pixel_at img xy =? 0)); [|apply IH].
  unfold chr. destruct ((0 <=? pixel_at img xy) && (pixel_at img xy <? 1114112));
    cbn [bind]; [apply IH|discriminate].
Qed.

Lemma decode_fuel (image_path : str) (w : World) :
  fst (decode image_path w) <> OutOfFuel.
Proof.
  unfold decode, bindM, Image_open.
  destruct (lookup image_path (files w)) as [img|]; [|discriminate].
  unfold lift. cbn [fst]. rewrite decode_rows_cells. apply decode_cells_fuel.
Qed.

End Totality.

(** ** The claims about [encode] and [decode] *)

(** C1, as the code has it.  For an output path that [check_filename]
    turns into a path at which the image can be saved, and a text whose
    code points all lie in [1, limit - 1] and do not exceed 255 (the raster
    keeps one byte per cell), decoding the image that [encode] saved
    returns exactly the text. *)
Theorem decode_encode_round_trip (s : text) (image_path result_path : str)
    (limit : Z) (w : World) :
  check_filename image_path (lit ".png") = Ok result_path ->
  can_save w result_path ->
  Forall (fun c => 1 <= ord c < limit /\ ord c <= 255) s ->
  exists w',
    encode (PyStr s) image_path limit w = (Ok result_path, w')
    /\ decode result_path w' = (Ok s, w').
Proof.
  intros Hpath Hsave Hs.
  assert (Hval : forall c, In c s -> pixel_value c limit = ord c /\ 1 <= ord c <= 255).
  { rewrite Forall_forall in Hs. intros c Hc. destruct (Hs c Hc) as [Hc1 Hc2].
    unfold pixel_value. rewrite Z.mod_small by lia.
    destruct (Z.eqb_spec (ord c) 0); lia. }
  assert (Hlimit : limit <> 0 \/ s = []).
  { destruct s as [|c s']; [now right|left].
    inversion Hs as [|? ? [Hc _] _]; subst. lia. }
  assert (Hpos : Forall (fun c => 1 <= pixel_value c limit) s).
  { apply Forall_forall. intros c Hc. destruct (Hval c Hc). lia. }
  destruct (decode_encode s image_path limit w result_path Hlimit Hpos Hpath Hsave)
    as [w' [img [Henc [_ [_ [_ [Hdec _]]]]]]].
  exists w'. split; [assumption|]. rewrite Hdec.
  enough (E : map (fun c => Z.to_N (stored limit c)) s = map (fun c => c) s)
    by now rewrite E, map_id.
  apply map_ext_in. intros c Hc. destruct (Hval c Hc) as [Hv Hb].
  unfold stored. rewrite Hv, CLIP8_byte by lia. apply N2Z.id.
Qed.

Lemma decode_encode_round_trip_witness :
  exists w',
    encode (PyStr [72; 69; 76; 76; 79]%N) (lit "hello") 256 empty_world
    = (Ok (lit "hello.png"), w')
    /\ decode (lit "hello.png") w' = (Ok [72; 69; 76; 76; 79]%N, w').
Proof.
  apply (decode_encode_round_trip [72; 69; 76; 76; 79]%N (lit "hello")
           (lit "hello.png") 256 empty_world).
  - reflexivity.
  - reflexivity.
  - repeat constructor; cbn; lia.
Defined.

(** C1 as stated fails.  The code point 300 is not zero modulo 256 and is
    stored as the non-zero value 44, so there is no zero-value collision;
    yet decoding returns the character 44, not the character 300. *)
Lemma round_trip_counterexample :
  Forall (fun c => ord c mod 256 <> 0 /\ stored 256 c <> 0) [300%N]
  /\ exists w',
       encode (PyStr [300%N]) (lit "out") 256 empty_world
       = (Ok (lit "out.png"), w')
       /\ decode (lit "out.png") w' = (Ok [44%N], w')
       /\ [44%N] <> [300%N].
Proof.
  split.
  - repeat constructor; cbn; lia.
  - eexists. split; [reflexivity|]. split; [reflexivity|discriminate].
Qed.

(** C4, as the code has it.  [encode] does not validate the limit: with
    [limit = 1] and an output path that [check_filename] turns into a path
    at which the image can be saved, it returns that path, and in the
    saved image every character is the value 1. *)
Theorem encode_limit_one_all_ones (s : text) (image_path result_path : str)
    (w : World) :
  check_filename image_path (lit ".png") = Ok result_path ->
  can_save w result_path ->
  exists w' img,
    encode (PyStr s) image_path 1 w = (Ok result_path, w')
    /\ lookup result_path (files w') = Some img
    /\ intensities img
       = repeat 1 (length s) ++ repeat 0 (length (scan (size img)) - length s).
Proof.
  intros Hpath Hsave.
  destruct (decode_encode s image_path 1 w result_path ltac:(left; lia)
              (pixel_values_pos s 1 ltac:(lia)) Hpath Hsave)
    as [w' [img [Henc [Hfile [_ [Hint _]]]]]].
  exists w', img. repeat apply conj; try assumption.
  rewrite Hint. f_equal.
  clear. induction s as [|c s IH]; [reflexivity|].
  cbn [map length repeat]. rewrite IH. f_equal.
  unfold stored, pixel_value. now rewrite Z.mod_1_r.
Qed.

Lemma encode_limit_one_all_ones_witness :
  exists w' img,
    encode (PyStr [65; 66; 67]%N) (lit "abc.png") 1 empty_world
    = (Ok (lit "abc.png"), w')
    /\ lookup (lit "abc.png") (files w') = Some img
    /\ intensities img
       = repeat 1 (length [65; 66; 67]%N)
         ++ repeat 0 (length (scan (size img)) - length [65; 66; 67]%N).
Proof.
  apply (encode_limit_one_all_ones [65; 66; 67]%N (lit "abc.png")
           (lit "abc.png") empty_world).
  - reflexivity.
  - reflexivity.
Defined.

(** C4 as stated fails.  [encode("AB", "out", limit=1)] raises nothing: it
    saves a 2 x 2 raster in which both characters are the value 1. *)
Lemma encode_limit_one_counterexample :
  exists w' img,
    encode (PyStr [65; 66]%N) (lit "out") 1 empty_world
    = (Ok (lit "out.png"), w')
    /\ lookup (lit "out.png") (files w') = Some img
    /\ size img = (2, 2)
    /\ intensities img = [1; 1; 0; 0].
Proof.
  eexists. eexists. split; [reflexivity|].
  split; [reflexivity|]. split; reflexivity.
Qed.

(** C5. For a limit of at least 1 and an output path that
    [check_filename] turns into a path at which the image can be saved,
    [encode] leaves at least one cell unwritten.  In the raster it saves,
    every cell after the last written character, in scan order, holds
    exactly 0; the decoder's loop makes no character out of those cells,
    and the decoded text has one character per character of the text and
    none more. *)
Theorem encode_trailing_cells_zero (s : text) (image_path result_path : str)
    (limit : Z) (w : World) :
  1 <= limit ->
  check_filename image_path (lit ".png") = Ok result_path ->
  can_save w result_path ->
  exists w' img,
    encode (PyStr s) image_path limit w = (Ok result_path, w')
    /\ lookup result_path (files w') = Some img
    /\ (length s < length (scan (size img)))%nat
    /\ (forall k, (length s <= k < length (scan (size img)))%nat ->
          exists xy, nth_error (scan (size img)) k = Some xy
                     /\ getpixel img xy = Ok 0)
    /\ decode_cells img (skipn (length s) (scan (size img))) [] = Ok []
    /\ exists decoded_text,
         decode result_path w' = (Ok decoded_text, w')
         /\ length decoded_text = length s.
Proof.
  intros Hlimit Hpath Hsave.
  destruct (decode_encode s image_path limit w result_path ltac:(left; lia)
              (pixel_values_pos s limit Hlimit) Hpath Hsave)
    as [w' [img [Henc [Hfile [Hlen [Hint [Hdec _]]]]]]].
  exists w', img. repeat apply conj; try assumption.
  - intros k Hk.
    destruct (nth_error (scan (size img)) k) as [xy|] eqn:Exy;
      [|apply nth_error_None in Exy; lia].
    exists xy. split; [reflexivity|].
    pose proof (scan_in_image img) as Hin. rewrite Forall_forall in Hin.
    unfold getpixel. rewrite (Hin xy (nth_error_In _ _ Exy)). f_equal.
    pose proof (map_nth_error (pixel_at img) k (scan (size img)) Exy) as Hpx.
    fold (intensities img) in Hpx. rewrite Hint in Hpx.
    rewrite nth_error_app2 in Hpx by (rewrite length_map; lia).
    apply nth_error_In, repeat_spec in Hpx. exact Hpx.
  - rewrite decode_cells_run.
    + rewrite <- skipn_map. fold (intensities img). rewrite Hint.
      rewrite skipn_app, skipn_all2 by (rewrite length_map; lia).
      rewrite length_map, Nat.sub_diag. cbn [skipn app].
      now rewrite filter_nonzero_zeros.
    + apply Forall_forall. intros xy Hxy.
      pose proof (scan_in_image img) as Hin. rewrite Forall_forall in Hin.
      apply Hin. eapply In_skipn; eauto.
    + rewrite <- skipn_map. fold (intensities img). rewrite Hint.
      rewrite skipn_app, skipn_all2 by (rewrite length_map; lia).
      rewrite length_map, Nat.sub_diag. cbn [skipn app].
      apply Forall_repeat. lia.
  - eexists. split; [exact Hdec|]. now rewrite length_map.
Qed.

Lemma encode_trailing_cells_zero_witness :
  exists w' img,
    encode (PyStr [72; 105; 33]%N) (lit "hi") 256 empty_world
    = (Ok (lit "hi.png"), w')
    /\ lookup (lit "hi.png") (files w') = Some img
    /\ (length [72; 105; 33]%N < length (scan (size img)))%nat
    /\ (forall k, (length [72; 105; 33]%N <= k < length (scan (size img)))%nat ->
          exists xy, nth_error (scan (size img)) k = Some xy
                     /\ getpixel img xy = Ok 0)
    /\ decode_cells img (skipn (length [72; 105; 33]%N) (scan (size img))) []
       = Ok []
    /\ exists decoded_text,
         decode (lit "hi.png") w' = (Ok decoded_text, w')
         /\ length decoded_text = length [72; 105; 33]%N.
Proof.
  apply (encode_trailing_cells_zero [72; 105; 33]%N (lit "hi") (lit "hi.png")
           256 empty_world).
  - lia.
  - reflexivity.
  - reflexivity.
Defined.

(** C6. Whatever the path and the limit, [encode] of a value that is not a
    string raises [TypeError] and leaves the world as it was: no image was
    allocated, no pixel written and no file saved. *)
Theorem encode_rejects_non_string (text : pyval) (image_path : str)
    (limit : Z) (w : World) :
  (forall s, text <> PyStr s) ->
  encode text image_path limit w = (Raise TypeError, w)
  /\ journal (snd (encode text image_path limit w)) = journal w
  /\ files (snd (encode text image_path limit w)) = files w.
Proof.
  intros Htext.
  assert (H : encode text image_path limit w = (Raise TypeError, w)).
  { destruct text; try reflexivity. now destruct (Htext s). }
  rewrite H. auto.
Qed.

Lemma encode_rejects_non_string_witness :
  encode (PyInt 3) (lit "") 0 empty_world = (Raise TypeError, empty_world)
  /\ journal (snd (encode (PyInt 3) (lit "") 0 empty_world)) = journal empty_world
  /\ files (snd (encode (PyInt 3) (lit "") 0 empty_world)) = files empty_world.
Proof.
  apply (encode_rejects_non_string (PyInt 3) (lit "") 0 empty_world).
  intros s. discriminate.
Defined.

(* ================================================================= *)
(** * Further properties of the code *)

(** ** [check_filename]: outcomes, idempotence, trailing slashes *)

Section CheckFilenameMore.

(** The loop keeps the path up to its last character that is no slash. *)
Lemma strip_slashes_stem (fuel : nat) :
  forall s, has_name_char s -> (length s < fuel)%nat ->
            exists stem c slashes,
              strip_slashes fuel s = Ok (stem ++ [c])
              /\ s = (stem ++ [c]) ++ slashes
              /\ is_slash c = false /\ only_slashes slashes.
Proof.
  induction fuel as [|fuel IH]; intros s Hs Hlen; [lia|].
  destruct (snoc_cases s) as [-> | [p [c ->]]]; [inversion Hs|].
  simpl. unfold index_last. rewrite last_opt_snoc. simpl.
  destruct (is_slash c) eqn:Hc.
  - rewrite removelast_last.
    apply Exists_app in Hs. destruct Hs as [Hp | Hl].
    + rewrite last_length in Hlen.
      destruct (IH p Hp ltac:(lia)) as [stem [c' [q [E [-> [Hc' Hq]]]]]].
      exists stem, c', (q ++ [c]). repeat split; try assumption.
      * now rewrite <- !app_assoc.
      * apply Forall_app. split; [assumption|]. now constructor.
    + inversion Hl as [? ? H | ? ? H]; subst; [congruence|inversion H].
  - exists p, c, []. repeat split; try assumption.
    + now rewrite app_nil_r.
    + constructor.
Qed.

End CheckFilenameMore.

(** X1. The outcome of [check_filename] is decided by two tests.  It
    returns a path exactly when the extension starts with ['.'] and the
    path has a character other than ['/'] and ['\']; it raises [ValueError]
    exactly when the extension is not empty and starts with another
    character; it raises [IndexError] exactly when the extension is empty,
    or starts with ['.'] while the path is empty or made of slashes. *)
Theorem check_filename_outcome (filepath extension : str) :
  ((exists r, check_filename filepath extension = Ok r)
   <-> starts_with_period extension /\ has_name_char filepath)
  /\ (check_filename filepath extension = Raise ValueError
      <-> exists c rest, extension = c :: rest /\ c <> period)
  /\ (check_filename filepath extension = Raise IndexError
      <-> extension = []
          \/ (starts_with_period extension /\ only_slashes filepath)).
Proof.
  destruct extension as [|c rest].
  - change (check_filename filepath []) with (@Raise str IndexError).
    split; [|split]; (split; intros Hyp).
    + destruct Hyp as [r H]. discriminate.
    + destruct Hyp as [[rest' H] _]. discriminate.
    + discriminate.
    + destruct Hyp as [c [rest [H _]]]. discriminate.
    + now left.
    + reflexivity.
  - destruct (Ascii.eqb_spec c period) as [->|Hc].
    + assert (Hext : starts_with_period (period :: rest)) by now exists rest.
      destruct (slashes_or_name filepath) as [Hs|Hn].
      * rewrite (check_filename_slashes _ _ Hs Hext).
        split; [|split]; (split; intros Hyp).
        -- destruct Hyp as [r H]. discriminate.
        -- destruct Hyp as [_ Hn]. destruct (slashes_not_name _ Hs Hn).
        -- discriminate.
        -- destruct Hyp as [c [rest' [E Hc]]]. congruence.
        -- right. now split.
        -- reflexivity.
      * destruct (check_filename_run _ _ Hn Hext) as [r [Hr _]]. rewrite Hr.
        split; [|split]; (split; intros Hyp).
        -- now split.
        -- now exists r.
        -- discriminate.
        -- destruct Hyp as [c [rest' [E Hc]]]. congruence.
        -- discriminate.
        -- destruct Hyp as [H | [_ Hs]]; [discriminate|].
           destruct (slashes_not_name _ Hs Hn).
    + rewrite (check_filename_no_period filepath c rest Hc).
      split; [|split]; (split; intros Hyp).
      * destruct Hyp as [r H]. discriminate.
      * destruct Hyp as [[rest' E] _]. congruence.
      * now exists c, rest.
      * reflexivity.
      * discriminate.
      * destruct Hyp as [H | [[rest' E] _]]; [discriminate|congruence].
Qed.

(** X2. On paths and extensions whose characters all have code points
    below 256, the strings of this development, where [lower] maps
    character to character, [check_filename] is idempotent: a path it
    returned is returned unchanged when it is checked again for the same
    extension. *)
Theorem check_filename_idempotent (filepath extension r : str) :
  check_filename filepath extension = Ok r ->
  check_filename r extension = Ok r.
Proof.
  intros H. destruct (check_filename_ok_inv _ _ _ H) as [Hext Hn].
  destruct (check_filename_run _ _ Hn Hext) as [r' [Hr' [Hends _]]].
  rewrite H in Hr'. injection Hr' as <-.
  destruct Hext as [rest ->].
  unfold endswith in Hends. apply andb_true_iff in Hends.
  destruct Hends as [Hlen Hsuf]. apply Nat.leb_le in Hlen.
  apply str_eqb_eq in Hsuf. rewrite !lower_length in Hlen, Hsuf.
  unfold lower at 1 in Hsuf. rewrite skipn_map in Hsuf.
  unfold check_filename. cbn [index_first bind].
  rewrite Ascii.eqb_refl. cbn [negb slice_last length].
  change (lower (skipn (length r - S (length rest)) r) = lower (period :: rest))
    in Hsuf.
  rewrite Hsuf, str_eqb_refl. reflexivity.
Qed.

Lemma check_filename_idempotent_witness :
  check_filename (lit "dir/out.png") (lit ".PNG") = Ok (lit "dir/out.png").
Proof.
  apply (check_filename_idempotent (lit "dir/out//") (lit ".PNG")).
  reflexivity.
Defined.

(** X3. When the path does not already end with the extension,
    [check_filename] removes every trailing ['/'] and ['\'] and appends
    the lower-cased extension right after the last character that is not a
    slash. *)
Theorem check_filename_strips_slashes (filepath extension : str) :
  has_name_char filepath ->
  starts_with_period extension ->
  lower (slice_last (length extension) filepath) <> lower extension ->
  exists stem c slashes,
    filepath = (stem ++ [c]) ++ slashes
    /\ is_slash c = false
    /\ only_slashes slashes
    /\ check_filename filepath extension
       = Ok ((stem ++ [c]) ++ lower extension).
Proof.
  intros Hn [rest ->] Hneq.
  destruct (strip_slashes_stem (S (length filepath)) filepath Hn ltac:(lia))
    as [stem [c [slashes [Hstrip [Hpath [Hc Hs]]]]]].
  exists stem, c, slashes. repeat split; try assumption.
  unfold check_filename. cbn [index_first bind].
  rewrite Ascii.eqb_refl. cbn [negb].
  destruct (str_eqb _ _) eqn:E.
  - apply str_eqb_eq in E. contradiction.
  - cbn [negb]. now rewrite Hstrip.
Qed.

Lemma check_filename_strips_slashes_witness :
  exists stem c slashes,
    lit "dir\out/\/" = (stem ++ [c]) ++ slashes
    /\ is_slash c = false
    /\ only_slashes slashes
    /\ check_filename (lit "dir\out/\/") (lit ".Txt")
       = Ok ((stem ++ [c]) ++ lower (lit ".Txt")).
Proof.
  apply (check_filename_strips_slashes (lit "dir\out/\/") (lit ".Txt")).
  - apply Exists_cons_hd. reflexivity.
  - exists (lit "Txt"). reflexivity.
  - discriminate.
Defined.

(** ** [convert_char_to_int]: collisions and the code points it keeps *)

(** X4. The value mapping has period [limit]: two characters whose code
    points differ by a multiple of the limit get the same result (the same
    value, or the same [ZeroDivisionError] for a zero limit). *)
Theorem convert_char_to_int_periodic (c c' : char) (k limit : Z) :
  ord c' = ord c + k * limit ->
  convert_char_to_int c' limit = convert_char_to_int c limit.
Proof.
  intros H. unfold convert_char_to_int, pixel_value.
  destruct (Z.eqb_spec limit 0) as [|Hlimit]; [reflexivity|].
  now rewrite H, Z.mod_add.
Qed.

Lemma convert_char_to_int_periodic_witness :
  convert_char_to_int 577%N 256 = convert_char_to_int 65%N 256.
Proof.
  apply (convert_char_to_int_periodic 65%N 577%N 2 256). reflexivity.
Defined.

(** X5. For a limit of at least 2, the value of a character is its own
    code point exactly when the code point lies in [1, limit - 1]. *)
Theorem convert_char_to_int_keeps (c : char) (limit : Z) :
  2 <= limit ->
  (convert_char_to_int c limit = Ok (ord c) <-> 1 <= ord c < limit).
Proof.
  intros Hlimit. unfold convert_char_to_int, pixel_value.
  destruct (Z.eqb_spec limit 0) as [|_]; [lia|].
  pose proof (Z.mod_pos_bound (ord c) limit ltac:(lia)) as Hmod.
  assert (Hord : 0 <= ord c) by (unfold ord; lia).
  split.
  - intros [= H].
    destruct (Z.eqb_spec (ord c mod limit) 0) as [E|E]; lia.
  - intros Hc. rewrite Z.mod_small by lia.
    destruct (Z.eqb_spec (ord c) 0); [lia|reflexivity].
Qed.

Lemma convert_char_to_int_keeps_witness :
  convert_char_to_int 255%N 256 = Ok (ord 255%N) <-> 1 <= ord 255%N < 256.
Proof.
  apply (convert_char_to_int_keeps 255%N 256). lia.
Defined.

(** ** [_factors]: the divisors, and its errors *)

Section FactorsMore.

Lemma factor_pairs_divisors (number d : Z) :
  1 <= number ->
  (In d (concat (factor_pairs number)) <-> 1 <= d /\ (d | number)).
Proof.
  intros Hn. rewrite factor_pairs_In. split.
  - intros [i [Hi [Hm Hd]]].
    assert (Hmul : number = i * (number / i)) by (apply Z.div_exact; lia).
    assert (Hq : 1 <= number / i) by nia.
    destruct Hd as [-> | ->].
    + split; [lia|]. exists (number / i). lia.
    + split; [lia|]. exists i. lia.
  - intros [Hd [z Hz]].
    pose proof (Z.sqrt_spec number ltac:(lia)) as Hs. cbv zeta in Hs.
    fold (isqrt number) in Hs.
    assert (Hz1 : 1 <= z) by nia.
    destruct (Z.le_gt_cases d (isqrt number)) as [Hle|Hgt].
    + exists d. split; [lia|]. split; [|now left].
      rewrite Hz. apply Z.mod_mul. lia.
    + assert (Hz2 : z <= isqrt number).
      { destruct (Z.le_gt_cases z (isqrt number)) as [|Hz2]; [assumption|].
        exfalso.
        assert ((isqrt number + 1) * (isqrt number + 1) <= z * d)
          by (apply Z.mul_le_mono_nonneg; lia).
        lia. }
      exists z. split; [lia|]. split; [|right].
      * rewrite Hz, Z.mul_comm. apply Z.mod_mul. lia.
      * rewrite Hz, Z.mul_comm. symmetry. apply Z.div_mul. lia.
Qed.

Lemma _factors_members (number : Z) :
  1 <= number ->
  exists f, _factors number = Ok f
            /\ divisor_list number f
            /\ (forall d, In d f <-> 1 <= d /\ (d | number)).
Proof.
  intros Hn.
  destruct (_factors_divisor_list number Hn) as [f [Hf Hdl]].
  exists f. repeat apply conj; try assumption.
  intros d. unfold _factors in Hf.
  destruct (Z.ltb_spec number 0) as [|_]; [lia|].
  rewrite reduce_add_concat in Hf by now apply factor_pairs_nonempty.
  cbn [bind] in Hf. injection Hf as <-.
  unfold set. rewrite sorted_In, nodup_In.
  now apply factor_pairs_divisors.
Qed.

(** The cofactor of the divisor at position [i] is at the mirrored
    position. *)
Lemma divisor_list_mirror_div (number : Z) (f : list Z) (i : nat) :
  1 <= number -> divisor_list number f -> (i < length f)%nat ->
  nth (length f - S i) f 0 = number / nth i f 0.
Proof.
  intros Hn Hf Hi.
  pose proof (divisor_list_rev number f Hn Hf) as Hrev.
  pose proof (rev_nth (map (fun d => number / d) f) 0
                      (n := length f - S i)) as Hnth.
  rewrite Hrev, length_map in Hnth. rewrite Hnth by lia.
  replace (length f - S (length f - S i))%nat with i by lia.
  rewrite (nth_indep _ 0 ((fun d => number / d) 0))
    by (rewrite length_map; lia).
  now rewrite map_nth.
Qed.

Lemma ascending_nth_le (l : list Z) (i j : nat) :
  ascending l -> (i <= j < length l)%nat -> nth i l 0 <= nth j l 0.
Proof.
  intros Hl Hij. destruct (Nat.eq_dec i j) as [->|Hne]; [lia|].
  pose proof (ascending_nth l Hl i j ltac:(lia)). lia.
Qed.

Lemma ascending_nth_inj (l : list Z) (i j : nat) :
  ascending l -> (i < length l)%nat -> (j < length l)%nat ->
  nth i l 0 = nth j l 0 -> i = j.
Proof.
  intros Hl Hi Hj E.
  destruct (Nat.lt_trichotomy i j) as [H|[H|H]]; [|assumption|].
  - pose proof (ascending_nth l Hl i j ltac:(lia)). lia.
  - pose proof (ascending_nth l Hl j i ltac:(lia)). lia.
Qed.

End FactorsMore.

(** X6. For a number of at least 1, [_factors] returns the strictly
    ascending list of exactly its positive divisors. *)
Theorem _factors_exact (number : Z) :
  1 <= number ->
  exists f, _factors number = Ok f
            /\ ascending f
            /\ (forall d, In d f <-> 1 <= d /\ (d | number)).
Proof.
  intros Hn.
  destruct (_factors_members number Hn) as [f [Hf [Hdl Hin]]].
  exists f. repeat apply conj; try assumption. exact (dl_ascending _ _ Hdl).
Qed.

Lemma _factors_exact_witness :
  exists f, _factors 12 = Ok f
            /\ ascending f
            /\ (forall d, In d f <-> 1 <= d /\ (d | 12)).
Proof.
  apply (_factors_exact 12). lia.
Defined.

(** X7. [_factors] returns a list exactly for the numbers from 1 on.  A
    negative number raises [ValueError]; zero passes that test and raises
    [TypeError], because [reduce] is given an empty sequence and no initial
    value. *)
Theorem _factors_outcome (number : Z) :
  ((exists f, _factors number = Ok f) <-> 1 <= number)
  /\ (_factors number = Raise ValueError <-> number < 0)
  /\ (_factors number = Raise TypeError <-> number = 0).
Proof.
  destruct (Z.lt_trichotomy number 0) as [Hneg|[->|Hpos]].
  - assert (E : _factors number = Raise ValueError).
    { unfold _factors. destruct (Z.ltb_spec number 0); [reflexivity|lia]. }
    rewrite E. split; [|split]; (split; intros Hyp);
      try discriminate; try reflexivity; try lia.
    destruct Hyp as [f H]. discriminate.
  - change (_factors 0) with (@Raise (list Z) TypeError).
    split; [|split]; (split; intros Hyp);
      try discriminate; try reflexivity; try lia.
    destruct Hyp as [f H]. discriminate.
  - destruct (_factors_divisor_list number ltac:(lia)) as [f [E _]].
    rewrite E. split; [|split]; (split; intros Hyp);
      try discriminate; try lia.
    now exists f.
Qed.

(** ** [get_image_size]: the most nearly square raster *)

Section ImageSizeMore.

(** The size is read off the middle of the divisor list. *)
Lemma get_image_size_middle (text_length : Z) :
  0 <= text_length ->
  exists f k,
    _factors (true_length text_length) = Ok f
    /\ divisor_list (true_length text_length) f
    /\ (forall d, In d f <-> 1 <= d /\ (d | true_length text_length))
    /\ ((length f = (2 * k + 2)%nat
         /\ get_image_size text_length = Ok (nth (S k) f 0, nth k f 0))
        \/ (length f = (2 * k + 1)%nat
            /\ get_image_size text_length = Ok (nth k f 0, nth k f 0))).
Proof.
  intros Hn.
  destruct (true_length_even text_length Hn) as [_ [Htl _]].
  destruct (_factors_members (true_length text_length)) as [f [Hf [Hdl Hin]]];
    [lia|].
  pose proof (dl_nonempty _ _ Hdl) as Hne.
  assert (Hpos : (0 < length f)%nat) by (destruct f; [congruence|simpl; lia]).
  unfold get_image_size. rewrite Hf. cbn [bind].
  destruct (Z.eqb_spec (len f mod 2) 0) as [Heven|Hodd]; cbn [negb].
  - destruct (len_even f Heven Hpos) as [k Hlen].
    exists f, k. repeat apply conj; try assumption; try reflexivity. left.
    split; [assumption|].
    rewrite (trim_to_two_middle k (S (length f)) f Hlen) by lia.
    reflexivity.
  - destruct (len_odd f Hodd) as [j [Hlen ->]].
    exists f, j. repeat apply conj; try assumption; try reflexivity. right.
    split; [assumption|].
    rewrite index_nth by lia. reflexivity.
Qed.

(** A divisor no larger than its cofactor sits in the first half of the
    list. *)
Lemma divisor_list_lower_half (number : Z) (f : list Z) (i : nat) :
  1 <= number -> divisor_list number f -> (i < length f)%nat ->
  nth i f 0 <= number / nth i f 0 -> (2 * i < length f)%nat.
Proof.
  intros Hn Hdl Hi Hle.
  rewrite <- (divisor_list_mirror_div number f i Hn Hdl Hi) in Hle.
  destruct (Nat.lt_ge_cases (2 * i) (length f)) as [|Hge]; [assumption|].
  exfalso.
  assert (Hneq : (length f - S i <> i)%nat).
  { intros E. lia. }
  pose proof (ascending_nth f (dl_ascending _ _ Hdl) (length f - S i) i
                ltac:(lia)).
  lia.
Qed.

Lemma divisor_list_square (number : Z) (f : list Z) :
  1 <= number -> divisor_list number f ->
  (forall d, In d f <-> 1 <= d /\ (d | number)) ->
  perfect_square number -> exists j, length f = (2 * j + 1)%nat.
Proof.
  intros Hn Hdl Hin [m [Hm ->]].
  assert (Hm1 : 1 <= m) by nia.
  assert (Hmf : In m f).
  { apply Hin. split; [lia|]. now exists m. }
  destruct (In_nth f m 0 Hmf) as [i [Hi Hnth]].
  pose proof (divisor_list_mirror_div (m * m) f i Hn Hdl Hi) as Hmir.
  rewrite Hnth, Z.div_mul in Hmir by lia. rewrite <- Hnth in Hmir.
  apply (ascending_nth_inj f _ _ (dl_ascending _ _ Hdl)) in Hmir; [|lia..].
  exists i. lia.
Qed.

End ImageSizeMore.

(** X8. [get_image_size] returns the most nearly square way of writing
    the true length as a product: the pair [(width, height)] it returns has
    [width >= height >= 1] and [width * height] equal to the true length,
    and among all ways of writing the true length as [a * b] with
    [a >= b >= 1] its height is the largest such [b] and its width the
    smallest such [a]. *)
Theorem get_image_size_most_square (text_length : Z) :
  0 <= text_length ->
  exists width height,
    get_image_size text_length = Ok (width, height)
    /\ 1 <= height <= width
    /\ width * height = true_length text_length
    /\ forall a b, 1 <= b <= a -> a * b = true_length text_length ->
                   b <= height /\ width <= a.
Proof.
  intros Hn.
  destruct (true_length_even text_length Hn) as [_ [Htl _]].
  destruct (get_image_size_run text_length Hn)
    as [f0 [w0 [h0 [_ [Hdl0 [Hsize0 [_ [Hh0 [Hle0 [Hmul0 _]]]]]]]]]].
  destruct (dl_cofactor _ _ Hdl0 h0 Hh0) as [Hh1 _].
  destruct (get_image_size_middle text_length Hn)
    as [f [k [_ [Hdl [Hin Hcase]]]]].
  assert (Hhalf : forall a b, 1 <= b <= a -> a * b = true_length text_length ->
            exists i, (2 * i < length f)%nat /\ nth i f 0 = b
                      /\ nth (length f - S i) f 0 = a).
  { intros a b Hba Hab.
    assert (Hb : In b f) by (apply Hin; split; [lia|now exists a]).
    destruct (In_nth f b 0 Hb) as [i [Hi Hnth]].
    assert (Hdiv : true_length text_length / b = a)
      by (rewrite <- Hab; apply Z.div_mul; lia).
    exists i. repeat apply conj; try assumption.
    - apply (divisor_list_lower_half (true_length text_length));
        try assumption; try lia. rewrite Hnth, Hdiv. lia.
    - rewrite (divisor_list_mirror_div (true_length text_length))
        by (assumption || lia).
      now rewrite Hnth. }
  pose proof (dl_ascending _ _ Hdl) as Hasc.
  exists w0, h0. split; [exact Hsize0|]. split; [lia|]. split; [exact Hmul0|].
  intros a b Hba Hab.
  destruct (Hhalf a b Hba Hab) as [i [Hi [<- <-]]].
  destruct Hcase as [[Hlen Hsize] | [Hlen Hsize]];
    rewrite Hsize0 in Hsize; injection Hsize as -> ->;
    split; apply ascending_nth_le; try assumption; lia.
Qed.

Lemma get_image_size_most_square_witness :
  exists width height,
    get_image_size 34 = Ok (width, height)
    /\ 1 <= height <= width
    /\ width * height = true_length 34
    /\ forall a b, 1 <= b <= a -> a * b = true_length 34 ->
                   b <= height /\ width <= a.
Proof.
  apply (get_image_size_most_square 34). lia.
Defined.

(** X9. The raster is square exactly when the true length is a perfect
    square. *)
Theorem get_image_size_square_iff (text_length : Z) :
  0 <= text_length ->
  exists width height,
    get_image_size text_length = Ok (width, height)
    /\ (width = height <-> perfect_square (true_length text_length)).
Proof.
  intros Hn.
  destruct (true_length_even text_length Hn) as [_ [Htl _]].
  destruct (get_image_size_middle text_length Hn)
    as [f [k [_ [Hdl [Hin Hcase]]]]].
  pose proof (dl_ascending _ _ Hdl) as Hasc.
  destruct Hcase as [[Hlen Hsize] | [Hlen Hsize]];
    eexists; eexists; (split; [exact Hsize|]).
  - pose proof (ascending_nth f Hasc k (S k) ltac:(lia)) as Hlt.
    split; [lia|]. intros Hsq.
    destruct (divisor_list_square (true_length text_length) f
                ltac:(lia) Hdl Hin Hsq) as [j Hj]. lia.
  - split; [|reflexivity]. intros _.
    pose proof (divisor_list_mirror (true_length text_length) f k
                  ltac:(lia) Hdl ltac:(lia)) as Hm.
    replace (length f - S k)%nat with k in Hm by lia.
    exists (nth k f 0). split; [|lia].
    destruct (dl_cofactor _ _ Hdl (nth k f 0)); [apply nth_In; lia|lia].
Qed.

Lemma get_image_size_square_iff_witness :
  exists width height,
    get_image_size 14 = Ok (width, height)
    /\ (width = height <-> perfect_square (true_length 14)).
Proof.
  apply (get_image_size_square_iff 14). lia.
Defined.

(** X10. A text of two or more characters never gets a raster one cell
    high: the height is at least 2. *)
Theorem get_image_size_not_flat (text_length : Z) :
  2 <= text_length ->
  exists width height,
    get_image_size text_length = Ok (width, height) /\ 2 <= height.
Proof.
  intros Hn.
  destruct (true_length_even text_length ltac:(lia)) as [Heven [_ Hroom]].
  destruct (get_image_size_middle text_length ltac:(lia))
    as [f [k [_ [Hdl [Hin Hcase]]]]].
  pose proof (dl_ascending _ _ Hdl) as Hasc.
  assert (Hpair : true_length text_length / 2 * 2 = true_length text_length).
  { Z.div_mod_to_equations. lia. }
  assert (Hbig : 2 <= true_length text_length / 2).
  { Z.div_mod_to_equations. lia. }
  assert (H2 : In 2 f).
  { apply Hin. split; [lia|]. exists (true_length text_length / 2). lia. }
  destruct (In_nth f 2 0 H2) as [i [Hi Hnth]].
  assert (Hhalf : (2 * i < length f)%nat).
  { apply (divisor_list_lower_half (true_length text_length));
      try assumption; try lia. rewrite Hnth. lia. }
  destruct Hcase as [[Hlen Hsize] | [Hlen Hsize]];
    eexists; eexists; (split; [exact Hsize|]);
    rewrite <- Hnth; apply ascending_nth_le; try assumption; lia.
Qed.

Lemma get_image_size_not_flat_witness :
  exists width height, get_image_size 2 = Ok (width, height) /\ 2 <= height.
Proof.
  apply (get_image_size_not_flat 2). lia.
Defined.

(** ** [encode]: what it saves, when it fails, in which order it works *)

Section EncodeMore.

Lemma encode_cells_files (s : text) (limit text_length : Z)
    (cells : list (Z * Z)) :
  forall img ind w,
    files (snd (encode_cells s limit text_length cells img ind w)) = files w.
Proof.
  induction cells as [|xy cells IH]; intros img ind w; cbn [encode_cells];
    [reflexivity|].
  destruct (ind <? text_length); [|reflexivity].
  unfold bindM at 1. unfold lift at 1.
  destruct (index s ind) as [c| |]; try reflexivity.
  unfold bindM at 1. unfold lift at 1.
  destruct (convert_char_to_int c limit) as [v| |]; try reflexivity.
  unfold bindM at 1. unfold Image_putpixel.
  destruct (putpixel img xy v) as [img'| |]; try reflexivity.
  now rewrite IH.
Qed.

Lemma encode_bad_path (s : text) (image_path : str) (limit : Z) (w : World) :
  only_slashes image_path ->
  encode (PyStr s) image_path limit w = (Raise IndexError, w).
Proof.
  intros Hpath.
  destruct (get_image_size_bounds (len s)) as [wd [ht [Hsize _]]];
    [unfold len; lia|].
  unfold encode. unfold bindM at 1. unfold lift at 1. rewrite Hsize.
  unfold bindM at 1. unfold lift at 1.
  rewrite check_filename_slashes; [reflexivity|assumption|].
  now exists (lit "png").
Qed.

Lemma scan_nonempty (sz : Z * Z) :
  (0 < length (scan sz))%nat -> exists xy cells, scan sz = xy :: cells.
Proof.
  destruct (scan sz) as [|xy cells]; simpl; [lia|eauto].
Qed.

(** With a zero limit the first character already fails, after the image
    was allocated. *)
Lemma encode_zero_limit (s : text) (image_path : str) (w : World) :
  has_name_char image_path -> s <> [] ->
  exists sz, get_image_size (len s) = Ok sz
             /\ encode (PyStr s) image_path 0 w
                = (Raise ZeroDivisionError, log (Allocated sz) w).
Proof.
  intros Hpath Hs.
  destruct (get_image_size_bounds (len s)) as [wd [ht [Hsize [Hwh [Hht Hroom]]]]];
    [unfold len; lia|].
  destruct (check_filename_run image_path (lit ".png") Hpath)
    as [p [Hp _]]; [now exists (lit "png")|].
  exists (wd, ht). split; [assumption|].
  unfold encode. unfold bindM at 1. unfold lift at 1. rewrite Hsize.
  unfold bindM at 1. unfold lift at 1. rewrite Hp.
  unfold bindM at 1. unfold Image_new. cbn [fst snd].
  destruct (Z.ltb_spec wd 0); [lia|]. destruct (Z.ltb_spec ht 0); [lia|].
  cbn [orb]. unfold bindM at 1.
  rewrite encode_rows_cells.
  change (flat_map _ (range 0 wd)) with (scan (wd, ht)).
  destruct (scan_nonempty (wd, ht)) as [xy [cells ->]].
  { rewrite scan_length. cbn [fst snd]. lia. }
  destruct s as [|c s]; [congruence|].
  cbn [encode_cells]. unfold len.
  destruct (Z.ltb_spec 0 (Z.of_nat (length (c :: s)))) as [_|Hlen];
    [|simpl in Hlen; lia].
  reflexivity.
Qed.

Lemma encode_saves_path (s : text) (image_path : str) (limit : Z)
    (w : World) (p : str) (w' : World) :
  encode (PyStr s) image_path limit w = (Ok p, w') ->
  check_filename image_path (lit ".png") = Ok p.
Proof.
  unfold encode. unfold bindM at 1. unfold lift at 1.
  destruct (get_image_size (len s)) as [sz| |]; try discriminate.
  unfold bindM at 1. unfold lift at 1.
  destruct (check_filename image_path (lit ".png")) as [q| |]; try discriminate.
  unfold bindM at 1. destruct (Image_new sz w) as [[img| |] w0]; try discriminate.
  unfold bindM at 1.
  destruct (encode_rows _ _ _ _ _ _ _ _) as [[[img' ind]| |] w1];
    try discriminate.
  unfold bindM, Image_save, ret.
  destruct (save_error (platform w1) q); [discriminate|].
  now intros [= -> _].
Qed.

Lemma write_events_chars (limit : Z) (cells : list (Z * Z)) :
  forall s : text,
    write_events cells (map (fun c => pixel_value c limit) s)
    = map (fun '(xy, c) => PixelWritten xy (pixel_value c limit))
          (combine cells s).
Proof.
  unfold write_events.
  induction cells as [|xy cells IH]; intros [|c s]; cbn [map combine];
    try reflexivity.
  now rewrite IH.
Qed.

End EncodeMore.

(** X11. [encode] changes the saved files only when it returns: then
    exactly one file is written, at the path that [check_filename] gives for
    the extension [".png"], and every other file is as before.  When
    [encode] raises, whatever the reason, no file is written. *)
Theorem encode_saves_only_on_success (text : pyval) (image_path : str)
    (limit : Z) (w : World) :
  match fst (encode text image_path limit w) with
  | Ok result_path =>
      check_filename image_path (lit ".png") = Ok result_path
      /\ exists img,
           files (snd (encode text image_path limit w))
           = (result_path, img) :: files w
  | _ => files (snd (encode text image_path limit w)) = files w
  end.
Proof.
  destruct (encode text image_path limit w) as [r w'] eqn:E. cbn [fst snd].
  destruct text as [| | | |s|]; try (injection E as <- <-; reflexivity).
  unfold encode in E. unfold bindM at 1 in E. unfold lift at 1 in E.
  destruct (get_image_size (len s)) as [sz| |];
    try (injection E as <- <-; reflexivity).
  unfold bindM at 1 in E. unfold lift at 1 in E.
  destruct (check_filename image_path (lit ".png")) as [p| |];
    try (injection E as <- <-; reflexivity).
  unfold bindM at 1 in E. unfold Image_new in E.
  destruct ((fst sz <? 0) || (snd sz <? 0));
    [injection E as <- <-; reflexivity|].
  unfold bindM at 1 in E.
  pose proof (encode_cells_files s limit (len s)
                (flat_map (fun row => map (fun col => (row, col)) (range 0 (snd sz)))
                          (range 0 (fst sz)))
                (blank sz) 0 (log (Allocated sz) w)) as Hfiles.
  rewrite encode_rows_cells in E.
  destruct (encode_cells _ _ _ _ _ _ _) as [[[img ind]| |] w1];
    cbn [fst snd] in Hfiles;
    [|injection E as <- <-; exact Hfiles..].
  unfold bindM, Image_save, ret in E.
  destruct (save_error (platform w1) p); injection E as <- <-;
    [exact Hfiles|].
  split; [reflexivity|]. exists img. cbn [files]. now rewrite Hfiles.
Qed.

(** X12. On a string and with a limit that is not negative, [encode]
    fails in four ways only.  It raises [IndexError] exactly when the
    output path is empty or made of slashes, and [ZeroDivisionError]
    exactly when the path has a character that is not a slash, the limit
    is 0 and the text is not empty.  Past these, it raises the
    [ValueError] or the [OSError] of [img.save] exactly when the platform
    refuses, in that way, the path that [check_filename] returned, and it
    returns exactly when the save goes through. *)
Theorem encode_outcome (s : text) (image_path : str) (limit : Z) (w : World) :
  0 <= limit ->
  (fst (encode (PyStr s) image_path limit w) = Raise IndexError
   <-> only_slashes image_path)
  /\ (fst (encode (PyStr s) image_path limit w) = Raise ZeroDivisionError
      <-> has_name_char image_path /\ limit = 0 /\ s <> [])
  /\ (forall e,
        fst (encode (PyStr s) image_path limit w) = Raise (exn_of_io_error e)
        <-> exists p, check_filename image_path (lit ".png") = Ok p
                      /\ (limit <> 0 \/ s = [])
                      /\ save_error (platform w) p = Some e)
  /\ ((exists result_path,
         fst (encode (PyStr s) image_path limit w) = Ok result_path)
      <-> exists p, check_filename image_path (lit ".png") = Ok p
                    /\ (limit <> 0 \/ s = [])
                    /\ can_save w p).
Proof.
  intros _.
  destruct (slashes_or_name image_path) as [Hs|Hn].
  - rewrite (encode_bad_path s image_path limit w Hs). cbn [fst].
    assert (Hno : forall p, check_filename image_path (lit ".png") <> Ok p).
    { intros p Hp. destruct (check_filename_ok_inv _ _ _ Hp) as [_ Hn].
      destruct (slashes_not_name _ Hs Hn). }
    split; [|split; [|split]].
    + split; auto.
    + split; [discriminate|].
      intros [Hn _]. destruct (slashes_not_name _ Hs Hn).
    + intros e. split; [destruct e; discriminate|].
      intros [p [Hp _]]. destruct (Hno p Hp).
    + split; [intros [r H]; discriminate|].
      intros [p [Hp _]]. destruct (Hno p Hp).
  - destruct (check_filename_run image_path (lit ".png") Hn)
      as [p [Hp _]]; [now exists (lit "png")|].
    assert (Hcase : (limit <> 0 \/ s = []) \/ (limit = 0 /\ s <> [])).
    { destruct (Z.eq_dec limit 0); destruct s; auto;
        right; split; [assumption|discriminate]. }
    destruct Hcase as [Hok | [-> Hne]].
    + destruct (encode_run s image_path limit w p Hok Hp)
        as [wd [ht [_ [_ Hrun]]]].
      rewrite Hrun. unfold can_save.
      destruct (save_error (platform w) p) as [e0|] eqn:Esave; cbn [fst].
      * split; [|split; [|split]].
        -- split; [destruct e0; discriminate|].
           intros Hs. destruct (slashes_not_name _ Hs Hn).
        -- split; [destruct e0; discriminate|].
           intros [_ [Hl Hne]]. destruct Hok; contradiction.
        -- intros e. split.
           ++ intros E. exists p. repeat split; try assumption.
              destruct e0, e; try discriminate; assumption.
           ++ intros [p' [Hp' [_ Hs']]]. congruence.
        -- split; [intros [r H]; discriminate|].
           intros [p' [Hp' [_ Hs']]]. congruence.
      * split; [|split; [|split]].
        -- split; [discriminate|].
           intros Hs. destruct (slashes_not_name _ Hs Hn).
        -- split; [discriminate|].
           intros [_ [Hl Hne]]. destruct Hok; contradiction.
        -- intros e. split; [discriminate|].
           intros [p' [Hp' [_ Hs']]]. congruence.
        -- split; [|now exists p].
           intros _. exists p. now repeat split.
    + destruct (encode_zero_limit s image_path w Hn Hne) as [sz [_ Hrun]].
      rewrite Hrun. cbn [fst].
      split; [|split; [|split]].
      * split; [discriminate|].
        intros Hs. destruct (slashes_not_name _ Hs Hn).
      * split; auto.
      * intros e. split; [destruct e; discriminate|].
        intros [p' [_ [[Hl | Hnil] _]]]; congruence.
      * split; [intros [r H]; discriminate|].
        intros [p' [_ [[Hl | Hnil] _]]]; congruence.
Qed.

Lemma encode_outcome_witness :
  (fst (encode (PyStr [65]%N) (lit "x/.png") 256 empty_world) = Raise IndexError
   <-> only_slashes (lit "x/.png"))
  /\ (fst (encode (PyStr [65]%N) (lit "x/.png") 256 empty_world)
      = Raise ZeroDivisionError
      <-> has_name_char (lit "x/.png") /\ 256 = 0 /\ [65%N] <> [])
  /\ (forall e,
        fst (encode (PyStr [65]%N) (lit "x/.png") 256 empty_world)
        = Raise (exn_of_io_error e)
        <-> exists p, check_filename (lit "x/.png") (lit ".png") = Ok p
                      /\ (256 <> 0 \/ [65%N] = [])
                      /\ save_error (platform empty_world) p = Some e)
  /\ ((exists result_path,
         fst (encode (PyStr [65]%N) (lit "x/.png") 256 empty_world)
         = Ok result_path)
      <-> exists p, check_filename (lit "x/.png") (lit ".png") = Ok p
                    /\ (256 <> 0 \/ [65%N] = [])
                    /\ can_save empty_world p).
Proof.
  apply (encode_outcome [65]%N (lit "x/.png") 256 empty_world). lia.
Defined.

(** X13. For a limit of at least 1, or an empty text, when
    [check_filename] returns a path and the platform lets the image be
    saved there, [encode] works in this order: it allocates the
    image, writes the value of the [k]-th character into the [k]-th cell of
    the scan order, one write per character, and saves last. *)
Theorem encode_journal (s : text) (image_path result_path : str) (limit : Z)
    (w : World) :
  1 <= limit \/ s = [] ->
  check_filename image_path (lit ".png") = Ok result_path ->
  can_save w result_path ->
  exists sz w',
    encode (PyStr s) image_path limit w = (Ok result_path, w')
    /\ get_image_size (len s) = Ok sz
    /\ journal w'
       = journal w
         ++ [Allocated sz]
         ++ map (fun '(xy, c) => PixelWritten xy (pixel_value c limit))
                (combine (scan sz) s)
         ++ [Saved result_path]
    /\ length (combine (scan sz) s) = length s.
Proof.
  intros Hlimit Hpath Hsave.
  assert (Hlimit' : limit <> 0 \/ s = []) by (destruct Hlimit; [left; lia|now right]).
  destruct (encode_run s image_path limit w result_path Hlimit' Hpath)
    as [wd [ht [Hsize [Hlen Hrun]]]].
  unfold can_save in Hsave. rewrite Hsave in Hrun.
  exists (wd, ht). eexists. split; [exact Hrun|]. split; [assumption|].
  cbn [journal]. split.
  - now rewrite write_events_chars.
  - rewrite length_combine. lia.
Qed.

Lemma encode_journal_witness :
  exists sz w',
    encode (PyStr [72; 105]%N) (lit "hi") 256 empty_world
    = (Ok (lit "hi.png"), w')
    /\ get_image_size (len [72; 105]%N) = Ok sz
    /\ journal w'
       = journal empty_world
         ++ [Allocated sz]
         ++ map (fun '(xy, c) => PixelWritten xy (pixel_value c 256))
                (combine (scan sz) [72; 105]%N)
         ++ [Saved (lit "hi.png")]
    /\ length (combine (scan sz) [72; 105]%N) = length [72; 105]%N.
Proof.
  apply (encode_journal [72; 105]%N (lit "hi") (lit "hi.png") 256 empty_world).
  - left. lia.
  - reflexivity.
  - reflexivity.
Defined.

(** ** The codec: stored values, the lossy round trip, zero cells *)

Section CodecMore.

Lemma stored_below_limit (c : char) (limit : Z) :
  2 <= limit -> 1 <= stored limit c <= 255 /\ stored limit c < limit.
Proof.
  intros Hlimit.
  pose proof (pixel_value_pos c limit ltac:(lia)) as Hpos.
  split; [now apply stored_pos|].
  unfold stored, pixel_value in *.
  pose proof (Z.mod_pos_bound (ord c) limit ltac:(lia)) as Hmod.
  pose proof (CLIP8_range (ord c mod limit)).
  destruct (Z.eqb_spec (ord c mod limit) 0).
  - unfold CLIP8. simpl. lia.
  - unfold CLIP8 in *. destruct (Z.leb_spec (ord c mod limit) 0); [lia|].
    destruct (Z.ltb_spec (ord c mod limit) 256); lia.
Qed.

Lemma ord_decoded_char (limit : Z) (c : char) :
  1 <= limit -> ord (decoded_char limit c) = stored limit c.
Proof.
  intros Hlimit. unfold decoded_char, ord.
  pose proof (stored_pos c limit (pixel_value_pos c limit Hlimit)).
  rewrite Z2N.id; lia.
Qed.

(** Reading back is a normalisation: applied to a character that was read
    back, it changes nothing. *)
Lemma decoded_char_idempotent (limit : Z) (c : char) :
  1 <= limit ->
  decoded_char limit (decoded_char limit c) = decoded_char limit c.
Proof.
  intros Hlimit.
  enough (E : stored limit (decoded_char limit c) = stored limit c)
    by (unfold decoded_char at 1; now rewrite E).
  unfold stored at 1. unfold pixel_value.
  rewrite (ord_decoded_char limit c Hlimit).
  pose proof (stored_pos c limit (pixel_value_pos c limit Hlimit)) as Hb.
  destruct (Z.eq_dec limit 1) as [->|Hne].
  - rewrite Z.mod_1_r. cbn [Z.eqb].
    unfold stored, pixel_value. now rewrite Z.mod_1_r.
  - destruct (stored_below_limit c limit ltac:(lia)) as [_ Hlt].
    rewrite Z.mod_small by lia.
    destruct (Z.eqb_spec (stored limit c) 0); [lia|].
    apply CLIP8_byte. lia.
Qed.

Lemma decoded_char_congruent (limit : Z) (a b : char) :
  congruent limit a b -> decoded_char limit a = decoded_char limit b.
Proof.
  unfold congruent, decoded_char, stored, pixel_value. now intros ->.
Qed.

End CodecMore.

(** X14. For a limit of at least 2, when [check_filename] returns a path
    and the platform lets the image be saved there, every intensity of the
    raster that [encode] saves lies in [0, limit - 1] and fits a byte. *)
Theorem encode_intensity_domain (s : text) (image_path result_path : str)
    (limit : Z) (w : World) :
  2 <= limit ->
  check_filename image_path (lit ".png") = Ok result_path ->
  can_save w result_path ->
  exists w' img,
    encode (PyStr s) image_path limit w = (Ok result_path, w')
    /\ lookup result_path (files w') = Some img
    /\ Forall (fun v => 0 <= v <= 255 /\ v < limit) (intensities img).
Proof.
  intros Hlimit Hpath Hsave.
  destruct (decode_encode s image_path limit w result_path ltac:(left; lia)
              (pixel_values_pos s limit ltac:(lia)) Hpath Hsave)
    as [w' [img [Henc [Hfile [_ [Hint _]]]]]].
  exists w', img. repeat apply conj; try assumption.
  rewrite Hint. apply Forall_app. split.
  - apply Forall_forall. intros v Hv. apply in_map_iff in Hv.
    destruct Hv as [c [<- _]].
    destruct (stored_below_limit c limit Hlimit). lia.
  - apply Forall_repeat. lia.
Qed.

Lemma encode_intensity_domain_witness :
  exists w' img,
    encode (PyStr [65; 300; 1024]%N) (lit "x") 100 empty_world
    = (Ok (lit "x.png"), w')
    /\ lookup (lit "x.png") (files w') = Some img
    /\ Forall (fun v => 0 <= v <= 255 /\ v < 100) (intensities img).
Proof.
  apply (encode_intensity_domain [65; 300; 1024]%N (lit "x") (lit "x.png") 100
           empty_world).
  - lia.
  - reflexivity.
  - reflexivity.
Defined.

(** X15. The round trip in general.  For a limit of at least 1, when
    [check_filename] returns a path and the platform lets the image be
    saved there, decoding what [encode] saved returns the text with every
    character replaced by the one whose code point is the stored value: the
    code point modulo the limit, 1 in place of 0, and at most 255. *)
Theorem decode_encode_lossy (s : text) (image_path result_path : str)
    (limit : Z) (w : World) :
  1 <= limit ->
  check_filename image_path (lit ".png") = Ok result_path ->
  can_save w result_path ->
  exists w',
    encode (PyStr s) image_path limit w = (Ok result_path, w')
    /\ decode result_path w' = (Ok (map (decoded_char limit) s), w')
    /\ forall c, ord (decoded_char limit c)
                 = Z.min 255 (if ord c mod limit =? 0 then 1 else ord c mod limit).
Proof.
  intros Hlimit Hpath Hsave.
  destruct (decode_encode s image_path limit w result_path ltac:(left; lia)
              (pixel_values_pos s limit Hlimit) Hpath Hsave)
    as [w' [img [Henc [_ [_ [_ [Hdec _]]]]]]].
  exists w'. repeat apply conj; try assumption.
  intros c. rewrite (ord_decoded_char limit c Hlimit).
  pose proof (pixel_value_pos c limit Hlimit) as Hpos.
  unfold stored. fold (pixel_value c limit). unfold CLIP8.
  destruct (Z.leb_spec (pixel_value c limit) 0); [lia|].
  destruct (Z.ltb_spec (pixel_value c limit) 256); lia.
Qed.

Lemma decode_encode_lossy_witness :
  exists w',
    encode (PyStr [65; 256; 300; 0]%N) (lit "x") 256 empty_world
    = (Ok (lit "x.png"), w')
    /\ decode (lit "x.png") w'
       = (Ok (map (decoded_char 256) [65; 256; 300; 0]%N), w')
    /\ forall c, ord (decoded_char 256 c)
                 = Z.min 255 (if ord c mod 256 =? 0 then 1 else ord c mod 256).
Proof.
  apply (decode_encode_lossy [65; 256; 300; 0]%N (lit "x") (lit "x.png") 256
           empty_world).
  - lia.
  - reflexivity.
  - reflexivity.
Defined.

(** X16. The codec is stable after one pass: the text that comes back
    from a round trip is returned unchanged by a second round trip with the
    same limit, when [check_filename] returns a path for each of the two
    output paths and the platform lets an image be saved at both. *)
Theorem decode_encode_stable (s : text) (path1 path2 p1 p2 : str) (limit : Z)
    (w : World) :
  1 <= limit ->
  check_filename path1 (lit ".png") = Ok p1 ->
  check_filename path2 (lit ".png") = Ok p2 ->
  can_save w p1 ->
  can_save w p2 ->
  exists w1 t,
    encode (PyStr s) path1 limit w = (Ok p1, w1)
    /\ decode p1 w1 = (Ok t, w1)
    /\ exists w2,
         encode (PyStr t) path2 limit w1 = (Ok p2, w2)
         /\ decode p2 w2 = (Ok t, w2).
Proof.
  intros Hlimit H1 H2 Hs1 Hs2.
  destruct (decode_encode s path1 limit w p1 ltac:(left; lia)
              (pixel_values_pos s limit Hlimit) H1 Hs1)
    as [w1 [img1 [Henc1 [_ [_ [_ [Hdec1 Hplat]]]]]]].
  fold (decoded_char limit) in Hdec1.
  exists w1, (map (decoded_char limit) s).
  repeat apply conj; try assumption.
  assert (Hs2' : can_save w1 p2) by (unfold can_save in *; now rewrite Hplat).
  destruct (decode_encode (map (decoded_char limit) s) path2 limit w1 p2
              ltac:(left; lia)
              (pixel_values_pos _ limit Hlimit) H2 Hs2')
    as [w2 [img2 [Henc2 [_ [_ [_ [Hdec2 _]]]]]]].
  exists w2. split; [assumption|]. rewrite Hdec2, map_map.
  rewrite (map_ext _ (decoded_char limit)); [reflexivity|].
  intros c. apply (decoded_char_idempotent limit c Hlimit).
Qed.

Lemma decode_encode_stable_witness :
  exists w1 t,
    encode (PyStr [65; 256; 300; 0]%N) (lit "a") 100 empty_world
    = (Ok (lit "a.png"), w1)
    /\ decode (lit "a.png") w1 = (Ok t, w1)
    /\ exists w2,
         encode (PyStr t) (lit "b") 100 w1 = (Ok (lit "b.png"), w2)
         /\ decode (lit "b.png") w2 = (Ok t, w2).
Proof.
  apply (decode_encode_stable [65; 256; 300; 0]%N (lit "a") (lit "b")
           (lit "a.png") (lit "b.png") 100 empty_world).
  - lia.
  - reflexivity.
  - reflexivity.
  - reflexivity.
  - reflexivity.
Defined.

(** X17. The decoder cannot tell apart two texts whose characters, place
    by place, have code points that agree modulo the limit: encoded to an
    output path for which [check_filename] returns a path where the
    platform lets the image be saved, both decode to the same text. *)
Theorem decode_encode_collision (s s' : text) (image_path result_path : str)
    (limit : Z) (w : World) :
  1 <= limit ->
  check_filename image_path (lit ".png") = Ok result_path ->
  can_save w result_path ->
  Forall2 (congruent limit) s s' ->
  exists w1 w1' t,
    encode (PyStr s) image_path limit w = (Ok result_path, w1)
    /\ encode (PyStr s') image_path limit w = (Ok result_path, w1')
    /\ decode result_path w1 = (Ok t, w1)
    /\ decode result_path w1' = (Ok t, w1').
Proof.
  intros Hlimit Hpath Hsave Hcong.
  destruct (decode_encode s image_path limit w result_path ltac:(left; lia)
              (pixel_values_pos s limit Hlimit) Hpath Hsave)
    as [w1 [img1 [Henc1 [_ [_ [_ [Hdec1 _]]]]]]].
  destruct (decode_encode s' image_path limit w result_path ltac:(left; lia)
              (pixel_values_pos s' limit Hlimit) Hpath Hsave)
    as [w1' [img1' [Henc1' [_ [_ [_ [Hdec1' _]]]]]]].
  exists w1, w1', (map (decoded_char limit) s).
  repeat apply conj; try assumption.
  rewrite Hdec1'.
  enough (E : map (fun c : char => Z.to_N (stored limit c)) s'
              = map (decoded_char limit) s)
    by now rewrite E.
  clear -Hcong. induction Hcong as [|a b s s' Hab _ IH]; [reflexivity|].
  cbn [map]. rewrite IH.
  now rewrite (decoded_char_congruent limit a b Hab).
Qed.

Lemma decode_encode_collision_witness :
  exists w1 w1' t,
    encode (PyStr [65; 66]%N) (lit "x") 256 empty_world = (Ok (lit "x.png"), w1)
    /\ encode (PyStr [321; 1090]%N) (lit "x") 256 empty_world
       = (Ok (lit "x.png"), w1')
    /\ decode (lit "x.png") w1 = (Ok t, w1)
    /\ decode (lit "x.png") w1' = (Ok t, w1').
Proof.
  apply (decode_encode_collision [65; 66]%N [321; 1090]%N (lit "x")
           (lit "x.png") 256 empty_world).
  - lia.
  - reflexivity.
  - reflexivity.
  - repeat constructor.
Defined.

(** X18. [decode] skips every zero cell, not only the trailing ones: for
    a saved image whose intensities are code points, it returns the
    characters of the non-zero intensities in scan order. *)
Theorem decode_skips_zero_cells (image_path : str) (img : Image) (w : World) :
  lookup image_path (files w) = Some img ->
  Forall (fun v => 0 <= v < 1114112) (intensities img) ->
  decode image_path w
  = (Ok (map Z.to_N (filter nonzero (intensities img))), w).
Proof. exact (decode_saved image_path img w). Qed.

Lemma decode_skips_zero_cells_witness :
  decode (lit "gap.png")
         (mkWorld [(lit "gap.png",
                    paint (blank (2, 2)) (scan (2, 2)) [65; 0; 66])] [])
  = (Ok (map Z.to_N (filter nonzero
           (intensities (paint (blank (2, 2)) (scan (2, 2)) [65; 0; 66])))),
     mkWorld [(lit "gap.png",
               paint (blank (2, 2)) (scan (2, 2)) [65; 0; 66])] []).
Proof.
  apply (decode_skips_zero_cells (lit "gap.png")
           (paint (blank (2, 2)) (scan (2, 2)) [65; 0; 66])).
  - reflexivity.
  - change (Forall (fun v => 0 <= v < 1114112) [65; 0; 66; 0]).
    repeat constructor; lia.
Defined.

(** ** The file wrappers *)

Section FileWrappers.

(** The result of [check_filename] ends with the extension, up to letter
    case, in the very form its own test looks for. *)
Lemma check_filename_result_suffix (filepath extension r : str) :
  check_filename filepath extension = Ok r ->
  lower (slice_last (length extension) r) = lower extension.
Proof.
  intros H. destruct (check_filename_ok_inv _ _ _ H) as [Hext Hn].
  destruct (check_filename_run _ _ Hn Hext) as [r' [Hr' [Hends _]]].
  rewrite H in Hr'. injection Hr' as <-.
  destruct Hext as [rest ->].
  unfold endswith in Hends. apply andb_true_iff in Hends.
  destruct Hends as [_ Hsuf].
  apply str_eqb_eq in Hsuf. rewrite !lower_length in Hsuf.
  unfold lower at 1 in Hsuf. rewrite skipn_map in Hsuf.
  exact Hsuf.
Qed.

(** A path passes the extension test exactly when [check_filename] returns
    it unchanged. *)
Lemma extension_test_check_filename (filepath extension : str) :
  starts_with_period extension ->
  (lower (slice_last (length extension) filepath) = lower extension
   <-> check_filename filepath extension = Ok filepath).
Proof.
  intros Hext. split.
  - intros E. destruct Hext as [rest ->].
    unfold check_filename. cbn [index_first bind].
    rewrite Ascii.eqb_refl. cbn [negb]. now rewrite E, str_eqb_refl.
  - apply check_filename_result_suffix.
Qed.

Lemma round_trip_exact (s : text) (image_path result_path : str) (limit : Z)
    (w : World) :
  check_filename image_path (lit ".png") = Ok result_path ->
  can_save w result_path ->
  Forall (fun c => 1 <= ord c < limit /\ ord c <= 255) s ->
  exists w',
    encode (PyStr s) image_path limit w = (Ok result_path, w')
    /\ decode result_path w' = (Ok s, w').
Proof.
  intros Hpath Hsave Hs.
  assert (Hval : forall c, In c s -> pixel_value c limit = ord c /\ 1 <= ord c <= 255).
  { rewrite Forall_forall in Hs. intros c Hc. destruct (Hs c Hc) as [Hc1 Hc2].
    unfold pixel_value. rewrite Z.mod_small by lia.
    destruct (Z.eqb_spec (ord c) 0); lia. }
  assert (Hlimit : limit <> 0 \/ s = []).
  { destruct s as [|c s']; [now right|left].
    inversion Hs as [|? ? [Hc _] _]; subst. lia. }
  assert (Hpos : Forall (fun c => 1 <= pixel_value c limit) s).
  { apply Forall_forall. intros c Hc. destruct (Hval c Hc). lia. }
  destruct (decode_encode s image_path limit w result_path Hlimit Hpos Hpath Hsave)
    as [w' [img [Henc [_ [_ [_ [Hdec _]]]]]]].
  exists w'. split; [assumption|]. rewrite Hdec.
  enough (E : map (fun c => Z.to_N (stored limit c)) s = map (fun c => c) s)
    by now rewrite E, map_id.
  apply map_ext_in. intros c Hc. destruct (Hval c Hc) as [Hv Hb].
  unfold stored. rewrite Hv, CLIP8_byte by lia. apply N2Z.id.
Qed.

End FileWrappers.

(** X19. [encode_file] validates in this order and touches nothing when it
    rejects: a missing file raises [FileExistsError], whatever its name; a
    file whose name [check_filename] would not return unchanged for
    [".txt"] raises [TypeError] without being read; a file that passes and
    reads as a text is handed to [encode] as it is. *)
Theorem encode_file_outcome (disk : TextFiles) (file_path image_path : str)
    (limit : Z) (w : World) :
  (disk file_path = None ->
   encode_file disk file_path image_path limit w = (Raise FileExistsError, w))
  /\ (forall content,
        disk file_path = Some content ->
        check_filename file_path (lit ".txt") <> Ok file_path ->
        encode_file disk file_path image_path limit w = (Raise TypeError, w))
  /\ (forall t,
        disk file_path = Some (Ok t) ->
        check_filename file_path (lit ".txt") = Ok file_path ->
        encode_file disk file_path image_path limit w
        = encode (PyStr t) image_path limit w).
Proof.
  assert (Hext : starts_with_period (lit ".txt")) by now exists (lit "txt").
  pose proof (extension_test_check_filename file_path (lit ".txt") Hext) as Htest.
  change (length (lit ".txt")) with 4%nat in Htest.
  change (lower (lit ".txt")) with (lit ".txt") in Htest.
  unfold encode_file. repeat apply conj.
  - now intros ->.
  - intros content -> Hneq.
    destruct (str_eqb _ _) eqn:E; [|reflexivity].
    apply str_eqb_eq in E. apply Htest in E. contradiction.
  - intros t -> Hok. apply Htest in Hok. rewrite Hok, str_eqb_refl.
    cbn [negb]. unfold bindM, lift. reflexivity.
Qed.

(** X20. A text file whose name ends in [".txt"], in any letter case, and
    which reads as a text whose characters all have code points in
    [1, limit - 1] and at most 255, survives [encode_file] followed by
    [decode]: when [check_filename] returns a path for the output path and
    the platform lets the image be saved there, [decode] returns the text
    that was read. *)
Theorem encode_file_round_trip (disk : TextFiles)
    (file_path image_path result_path : str) (t : text) (limit : Z)
    (w : World) :
  disk file_path = Some (Ok t) ->
  lower (slice_last 4 file_path) = lit ".txt" ->
  check_filename image_path (lit ".png") = Ok result_path ->
  can_save w result_path ->
  Forall (fun c => 1 <= ord c < limit /\ ord c <= 255) t ->
  exists w',
    encode_file disk file_path image_path limit w = (Ok result_path, w')
    /\ decode result_path w' = (Ok t, w').
Proof.
  intros Hfile Hext Hpath Hsave Ht.
  destruct (round_trip_exact t image_path result_path limit w Hpath Hsave Ht)
    as [w' [Henc Hdec]].
  exists w'. split; [|assumption].
  unfold encode_file. rewrite Hfile, Hext, str_eqb_refl. cbn [negb].
  unfold bindM, lift. exact Henc.
Qed.

Lemma encode_file_round_trip_witness :
  exists w',
    encode_file (fun p => if str_eqb p (lit "note.TXT")
                          then Some (Ok [72; 105]%N) else None)
                (lit "note.TXT") (lit "note") 256 empty_world
    = (Ok (lit "note.png"), w')
    /\ decode (lit "note.png") w' = (Ok [72; 105]%N, w').
Proof.
  apply (encode_file_round_trip
           (fun p => if str_eqb p (lit "note.TXT")
                     then Some (Ok [72; 105]%N) else None)
           (lit "note.TXT") (lit "note") (lit "note.png") [72; 105]%N 256
           empty_world).
  - reflexivity.
  - reflexivity.
  - reflexivity.
  - reflexivity.
  - repeat constructor; cbn; lia.
Defined.

(** X21. [decode_to_file] validates in this order and writes nothing when
    it rejects: a missing image raises [FileExistsError]; an image whose
    name does not end in [".png"], in any letter case, raises [TypeError];
    an output path that is empty or made of slashes raises [IndexError]
    before the image is decoded. *)
Theorem decode_to_file_rejects (image_path file_path : str) (d : Disk) :
  (lookup image_path (files (world d)) = None ->
   decode_to_file image_path file_path d = (Raise FileExistsError, d))
  /\ (lookup image_path (files (world d)) <> None ->
      lower (slice_last 4 image_path) <> lit ".png" ->
      decode_to_file image_path file_path d = (Raise TypeError, d))
  /\ (lookup image_path (files (world d)) <> None ->
      lower (slice_last 4 image_path) = lit ".png" ->
      only_slashes file_path ->
      decode_to_file image_path file_path d = (Raise IndexError, d)).
Proof.
  unfold decode_to_file. repeat apply conj.
  - now intros ->.
  - intros Hfile Hext.
    destruct (lookup image_path (files (world d))); [|congruence].
    destruct (str_eqb _ _) eqn:E; [|reflexivity].
    apply str_eqb_eq in E. contradiction.
  - intros Hfile Hext Hpath.
    destruct (lookup image_path (files (world d))); [|congruence].
    rewrite Hext, str_eqb_refl. cbn [negb].
    rewrite check_filename_slashes; [reflexivity|assumption|].
    now exists (lit "txt").
Qed.

(** X22. [decode_to_file] accepts what [encode] produced.  For a limit of
    at least 1, when [check_filename] returns a path for the image and the
    platform lets the image be saved there, the image path that [encode]
    returns passes the [".png"] test; when moreover [check_filename]
    returns a path for the text file, the platform lets that file be
    opened for writing and can encode the decoded text, [decode_to_file]
    writes the decoded text (every character read back from its stored
    value) to that path, leaving the images as they were. *)
Theorem decode_to_file_after_encode (s : text)
    (image_path file_path result_path text_path : str)
    (limit : Z) (w : World) (docs : list (str * text)) :
  1 <= limit ->
  check_filename image_path (lit ".png") = Ok result_path ->
  can_save w result_path ->
  check_filename file_path (lit ".txt") = Ok text_path ->
  open_error (platform w) text_path = None ->
  unencodable (platform w) (map (decoded_char limit) s) = false ->
  exists w',
    encode (PyStr s) image_path limit w = (Ok result_path, w')
    /\ decode_to_file result_path file_path (mkDisk w' docs)
       = (Ok text_path,
          mkDisk w' ((text_path, map (decoded_char limit) s) :: docs)).
Proof.
  intros Hlimit Hip Hsave Hq Hopen Hwrite.
  destruct (decode_encode s image_path limit w result_path ltac:(left; lia)
              (pixel_values_pos s limit Hlimit) Hip Hsave)
    as [w' [img [Henc [Hfile [_ [_ [Hdec Hplat]]]]]]].
  exists w'. split; [assumption|].
  pose proof (check_filename_result_suffix image_path (lit ".png") result_path
                Hip) as Hsuf.
  change (length (lit ".png")) with 4%nat in Hsuf.
  change (lower (lit ".png")) with (lit ".png") in Hsuf.
  fold (decoded_char limit) in Hdec.
  unfold decode_to_file. cbn [world documents].
  rewrite Hfile, Hsuf, str_eqb_refl. cbn [negb].
  rewrite Hq, Hdec, Hplat, Hopen.
  match goal with
  | |- (if ?b then _ else _) = _ =>
      change b with (unencodable (platform w) (map (decoded_char limit) s))
  end.
  now rewrite Hwrite.
Qed.

Lemma decode_to_file_after_encode_witness :
  exists w',
    encode (PyStr [72; 105; 300]%N) (lit "pic") 256 empty_world
    = (Ok (lit "pic.png"), w')
    /\ decode_to_file (lit "pic.png") (lit "out/") (mkDisk w' [])
       = (Ok (lit "out.txt"),
          mkDisk w' [(lit "out.txt", map (decoded_char 256) [72; 105; 300]%N)]).
Proof.
  apply (decode_to_file_after_encode [72; 105; 300]%N (lit "pic") (lit "out/")
           (lit "pic.png") (lit "out.txt") 256 empty_world []).
  - lia.
  - reflexivity.
  - reflexivity.
  - reflexivity.
  - reflexivity.
  - reflexivity.
Defined.
